(** * Render job scheduler (VideoRenderQueue) — shallow embedding

    The development follows the TypeScript source of the render queue:
    the linked-list [Queue], the [RenderJob] record and the
    [VideoRenderQueue] class with [enqueue], [cancelPendingForSegment],
    [processNext], [estimateRenderTime] and [getStats].

    Conventions of the embedding.
    - JavaScript numbers that the program only ever uses as integers
      (timestamps in ms, counters, sizes) are [Z]; the single division,
      in [getStats], is taken in [Q], which is what [Math.round] of the
      double quotient gives as long as the durations are not negative
      and their sum stays below 2^52; the statement about the average
      has both as hypotheses.
    - The lookup [times[effect]] of [estimateRenderTime] follows the
      prototype chain of the object literal: see [TableValue].
    - A [RenderJob] is a mutable object shared by the queue and by the
      history array.  Every job object is pushed to [history] when it is
      created and [history] is never pruned, so the history list is the
      object store and a reference to a job is its position in it.
    - [processNext] is an [async] function.  Its synchronous prefix (up
      to [await sleep]) is the function [processNext]; the part after the
      [await] is [resume], run when the timer of a suspended frame fires.
      JavaScript runs each of them to completion, so they are the atomic
      steps of the model.
    - [Date.now()] is an input: every step receives the readings it makes.
    - [console.log] output is not modelled, nor is [printHistory], which
      only prints. *)

From Stdlib Require Import ZArith QArith Qround Qabs Lia Lqa Ascii.
From stdpp Require Import base option list sorting strings gmap pretty.
From Equations Require Import Equations.

Local Open Scope Z_scope.

(** ** Types *)

(** [type EffectType = "color_grade" | "blur" | "trim" | "speed_change" |
    "transition"].  A union of string literals is a string at run time;
    the members of the union are listed in [EffectType_members]. *)
Abbreviation EffectType := string (only parsing).

Definition EffectType_members : list EffectType :=
  ["color_grade"; "blur"; "trim"; "speed_change"; "transition"]%string.

(** [type Priority = "high" | "normal" | "low"] *)
Inductive Priority : Type := High | Normal | Low.

(** [type JobStatus = "pending" | "processing" | "done" | "cancelled"] *)
Inductive JobStatus : Type := Pending | Processing | Done | Cancelled.

#[global] Instance Priority_eq_dec : EqDecision Priority.
Proof. solve_decision. Defined.

#[global] Instance JobStatus_eq_dec : EqDecision JobStatus.
Proof. solve_decision. Defined.

(** [interface RenderJob]; the optional [durationMs?] is an [option]. *)
Record RenderJob : Type := mkRenderJob {
  id : string;
  segmentId : string;
  effect : EffectType;
  priority : Priority;
  createdAt : Z;
  status : JobStatus;
  durationMs : option Z
}.

(** [type CreateJobParams = Pick<RenderJob, "segmentId" | "effect" | "priority">] *)
Record CreateJobParams : Type := mkParams {
  p_segmentId : string;
  p_effect : EffectType;
  p_priority : Priority
}.

(** [interface QueueStats] *)
Record QueueStats : Type := mkStats {
  pending : Z;
  processing : Z;
  done : Z;
  cancelled : Z;
  averageRenderTimeMs : Z
}.

(** Field assignments [job.status = v] and [job.durationMs = v]. *)
Definition set_status (v : JobStatus) (job : RenderJob) : RenderJob :=
  mkRenderJob (id job) (segmentId job) (effect job) (priority job)
              (createdAt job) v (durationMs job).

Definition set_durationMs (v : Z) (job : RenderJob) : RenderJob :=
  mkRenderJob (id job) (segmentId job) (effect job) (priority job)
              (createdAt job) (status job) (Some v).

(** A reference to a job object: its position in the history. *)
Abbreviation RenderJobRef := nat (only parsing).

(** ** The linked-list queue *)

Module Queue.

(** [class Queue<T>].  The chain of nodes from [head] to [tail] is the
    list [items] ([head] is its first node, [tail] its last, both null
    when it is empty); [_size] is the counter the class keeps next to
    the chain. *)
Record t (T : Type) : Type := mk { items : list T; _size : Z }.
Arguments mk {T} _ _.
Arguments items {T} _.
Arguments _size {T} _.

Section Ops.
Context {T : Type}.

(** [new Queue()] *)
Definition empty : t T := mk [] 0.

(** [enqueue(value)]: link a new node after [tail], [_size++]. *)
Definition enqueue (value : T) (q : t T) : t T :=
  mk (items q ++ [value]) (_size q + 1).

(** [dequeue()]: [undefined] when [head] is null (before any change),
    otherwise unlink the head node, [_size--]. *)
Definition dequeue (q : t T) : option T * t T :=
  match items q with
  | [] => (None, q)
  | value :: rest => (Some value, mk rest (_size q - 1))
  end.

(** [peek()] *)
Definition peek (q : t T) : option T := head (items q).

(** [get size()] *)
Definition size (q : t T) : Z := _size q.

(** [get isEmpty()]: [this._size === 0]. *)
Definition isEmpty (q : t T) : bool := _size q =? 0.

(** [toArray()] *)
Definition toArray (q : t T) : list T := items q.
End Ops.

End Queue.

(** ** The scheduler *)

(** What the lookup [times[effect]] evaluates to.  [times] is an object
    literal: for a key it has, the lookup gives the number of the table;
    for any other key it goes on to the prototype of the literal,
    [Object.prototype], and gives the member of that name if there is
    one (a function, or the prototype itself for [__proto__]), and
    [undefined] otherwise. *)
Inductive TableValue : Type :=
| TNumber (ms : Z)
| TInherited (member : string)
| TUndefined.

(** The names that [Object.prototype] has (with no change made to it). *)
Definition Object_prototype_members : list string :=
  ["constructor"; "hasOwnProperty"; "isPrototypeOf"; "propertyIsEnumerable";
   "toLocaleString"; "toString"; "valueOf"; "__proto__";
   "__defineGetter__"; "__defineSetter__"; "__lookupGetter__";
   "__lookupSetter__"]%string.

(** The frame of a [processNext] call suspended at [await sleep]: its
    locals [job], [startTime] and [renderTime]. *)
Record Frame : Type := mkFrame {
  f_job : RenderJobRef;
  f_startTime : Z;
  f_renderTime : TableValue
}.

(** [class VideoRenderQueue]: its five private fields, and the frames of
    [processNext] currently waiting for their timer. *)
Record VideoRenderQueue : Type := mkVRQ {
  queue : Queue.t RenderJobRef;
  history : list RenderJob;
  cancelledSegments : gset string;
  isProcessing : bool;
  jobCounter : Z;
  suspended : list Frame
}.

(** [new VideoRenderQueue()] *)
Definition init : VideoRenderQueue :=
  mkVRQ Queue.empty [] ∅ false 0 [].

(** The own properties of the object [times] of [estimateRenderTime]. *)
Definition times : gmap string Z :=
  list_to_map [("trim", 100); ("speed_change", 200); ("color_grade", 350);
               ("blur", 300); ("transition", 250)]%string.

(** [estimateRenderTime]: the lookup [times[effect]]. *)
Definition estimateRenderTime (effect : EffectType) : TableValue :=
  match times !! effect with
  | Some ms => TNumber ms
  | None =>
      if bool_decide (effect ∈ Object_prototype_members)
      then TInherited effect
      else TUndefined
  end.

(** The body of the loop of [cancelPendingForSegment] on one job. *)
Definition cancel_if_pending (seg : string) (job : RenderJob) : RenderJob :=
  if bool_decide (segmentId job = seg) && bool_decide (status job = Pending)
  then set_status Cancelled job
  else job.

(** [cancelPendingForSegment(segmentId)] *)
Definition cancelPendingForSegment (seg : string) (s : VideoRenderQueue)
  : VideoRenderQueue :=
  mkVRQ (queue s)
        (cancel_if_pending seg <$> history s)
        ({[seg]} ∪ cancelledSegments s)
        (isProcessing s) (jobCounter s) (suspended s).

(** Case analysis on a value that keeps the equation with its shape. *)
Definition inspect {A : Type} (a : A) : {b : A | a = b} := exist _ a eq_refl.

(** [processNext()] up to its first [await].  The skip of a cancelled job
    is the recursive call [return this.processNext()], which runs at once.
    [job] is [undefined] when [dequeue] finds no head although [_size] is
    not 0; reading [job.status] then faults and the call ends there.  A
    reference outside the history is no object of the program; the model
    ends the call there as well. *)
Equations? processNext (startTime : Z) (s : VideoRenderQueue)
  : VideoRenderQueue by wf (length (Queue.items (queue s))) lt :=
  processNext startTime s with Queue.isEmpty (queue s) := {
    | true :=
        mkVRQ (queue s) (history s) (cancelledSegments s) false
              (jobCounter s) (suspended s);
    | false with inspect (Queue.dequeue (queue s)) := {
      | exist _ (None, _) _ :=
          mkVRQ (queue s) (history s) (cancelledSegments s) true
                (jobCounter s) (suspended s);
      | exist _ (Some j, q') Hdq with inspect (history s !! j) := {
        | exist _ None _ :=
            mkVRQ q' (history s) (cancelledSegments s) true
                  (jobCounter s) (suspended s);
        | exist _ (Some job) _ with bool_decide (status job = Cancelled) := {
          | true :=
              processNext startTime
                (mkVRQ q' (history s) (cancelledSegments s) true
                       (jobCounter s) (suspended s));
          | false :=
              mkVRQ q'
                    (alter (set_status Processing) j (history s))
                    (cancelledSegments s) true (jobCounter s)
                    (suspended s ++
                       [mkFrame j startTime (estimateRenderTime (effect job))])
          }
        }
      }
    }.
Proof.
  unfold Queue.dequeue in Hdq.
  destruct (Queue.items (queue s)) as [|v rest]; simplify_eq/=. lia.
Qed.

(** [processNext()] after [await sleep(renderTime)], for the frame [f]:
    [job.status = "done"], [job.durationMs = Date.now() - startTime], then
    the call [this.processNext()], which runs up to its own [await].
    [now] is the reading taken here, [startTime'] the one of that call. *)
Definition resume (f : Frame) (now startTime' : Z) (s : VideoRenderQueue)
  : VideoRenderQueue :=
  let finish job := set_durationMs (now - f_startTime f) (set_status Done job) in
  processNext startTime'
    (mkVRQ (queue s) (alter finish (f_job f) (history s))
           (cancelledSegments s) (isProcessing s) (jobCounter s)
           (suspended s)).

(** The statements of [enqueue(params)] before the worker is looked at:
    cancel the pending jobs of the segment, build the job, append it to
    the queue and to the history.  The result is the reference [job]. *)
Definition enqueue_accept (params : CreateJobParams) (now : Z)
  (s : VideoRenderQueue) : RenderJobRef * VideoRenderQueue :=
  let s1 := cancelPendingForSegment (p_segmentId params) s in
  let counter := jobCounter s1 + 1 in
  let job := mkRenderJob ("job_" +:+ pretty counter) (p_segmentId params)
                         (p_effect params) (p_priority params) now
                         Pending None in
  let ref : RenderJobRef := length (history s1) in
  (ref, mkVRQ (Queue.enqueue ref (queue s1)) (history s1 ++ [job])
              (cancelledSegments s1) (isProcessing s1) counter
              (suspended s1)).

(** [enqueue(params)]: the statements above, then
    [if (!this.isProcessing) this.processNext()], then [return job].
    [now] is the reading for [createdAt], [startTime] the one that
    [processNext] takes if it starts a job. *)
Definition enqueue (params : CreateJobParams) (now startTime : Z)
  (s : VideoRenderQueue) : RenderJobRef * VideoRenderQueue :=
  let '(job, s2) := enqueue_accept params now s in
  (job, if isProcessing s2 then s2 else processNext startTime s2).

(** [Math.round]: the nearest integer, a tie going up. *)
Definition Math_round (x : Q) : Z := Qfloor (x + (1 # 2)).

(** The counters object [counts] of [getStats] and [counts[status]++]. *)
Record Counts : Type := mkCounts {
  c_pending : Z; c_processing : Z; c_done : Z; c_cancelled : Z
}.

Definition bump (st : JobStatus) (c : Counts) : Counts :=
  match st with
  | Pending => mkCounts (c_pending c + 1) (c_processing c) (c_done c) (c_cancelled c)
  | Processing => mkCounts (c_pending c) (c_processing c + 1) (c_done c) (c_cancelled c)
  | Done => mkCounts (c_pending c) (c_processing c) (c_done c + 1) (c_cancelled c)
  | Cancelled => mkCounts (c_pending c) (c_processing c) (c_done c) (c_cancelled c + 1)
  end.

(** The body of the loop of [getStats] on one job. *)
Definition stats_step (acc : Counts * list Z) (job : RenderJob)
  : Counts * list Z :=
  let '(counts, renderTimes) := acc in
  (bump (status job) counts,
   match status job, durationMs job with
   | Done, Some d => renderTimes ++ [d]
   | _, _ => renderTimes
   end).

(** [renderTimes.reduce((a, b) => a + b, 0)] *)
Definition reduce_sum (renderTimes : list Z) : Z := foldl Z.add 0 renderTimes.

(** [Math.round(sum / renderTimes.length)] when the array is not empty,
    0 otherwise. *)
Definition average (renderTimes : list Z) : Z :=
  if (0 <? Z.of_nat (length renderTimes))
  then Math_round (inject_Z (reduce_sum renderTimes)
                   / inject_Z (Z.of_nat (length renderTimes)))%Q
  else 0.

(** [getStats()]: it assigns to no field of the scheduler and to no job,
    so it is a function of the state. *)
Definition getStats (s : VideoRenderQueue) : QueueStats :=
  let '(counts, renderTimes) :=
    foldl stats_step (mkCounts 0 0 0 0, []) (history s) in
  mkStats (c_pending counts) (c_processing counts) (c_done counts)
          (c_cancelled counts) (average renderTimes).

(** ** Runs of the scheduler *)

(** What can happen to a scheduler: a call of one of its public methods,
    or the timer of the [k]-th suspended frame firing. *)
Inductive Event : Type :=
| CallEnqueue (params : CreateJobParams) (now startTime : Z)
| CallCancelPendingForSegment (seg : string)
| CallGetStats
| TimerFires (k : nat) (now startTime : Z).

(** What the caller gets back. *)
Inductive Output : Type :=
| RetJob (job : RenderJobRef)
| RetVoid
| RetStats (stats : QueueStats)
| NoCaller.

(** One atomic step; [None] when the event cannot happen (no such timer). *)
Definition step (e : Event) (s : VideoRenderQueue)
  : option (Output * VideoRenderQueue) :=
  match e with
  | CallEnqueue params now startTime =>
      let '(job, s') := enqueue params now startTime s in Some (RetJob job, s')
  | CallCancelPendingForSegment seg =>
      Some (RetVoid, cancelPendingForSegment seg s)
  | CallGetStats => Some (RetStats (getStats s), s)
  | TimerFires k now startTime =>
      f ← suspended s !! k;
      Some (NoCaller,
            resume f now startTime
              (mkVRQ (queue s) (history s) (cancelledSegments s)
                     (isProcessing s) (jobCounter s) (delete k (suspended s))))
  end.

(** A run: the events in order, with the outputs they produced. *)
Fixpoint run (es : list Event) (s : VideoRenderQueue)
  : option (list Output * VideoRenderQueue) :=
  match es with
  | [] => Some ([], s)
  | e :: es' =>
      '(o, s1) ← step e s;
      '(os, s2) ← run es' s1;
      Some (o :: os, s2)
  end.

(** The states the scheduler can be in between two atomic steps. *)
Definition reachable (s : VideoRenderQueue) : Prop :=
  ∃ es os, run es init = Some (os, s).

(** ** The scheduler without [cancelledSegments]

    The variant the write-only claim compares with: the class with the
    field [cancelledSegments] and the one statement that touches it
    ([this.cancelledSegments.add(segmentId)]) removed, everything else as
    above. *)

Module NoSet.

Record t : Type := mk {
  queue : Queue.t RenderJobRef;
  history : list RenderJob;
  isProcessing : bool;
  jobCounter : Z;
  suspended : list Frame
}.

Definition init : t := mk Queue.empty [] false 0 [].

Definition cancelPendingForSegment (seg : string) (s : t) : t :=
  mk (queue s) (cancel_if_pending seg <$> history s)
     (isProcessing s) (jobCounter s) (suspended s).

Equations? processNext (startTime : Z) (s : t) : t
  by wf (length (Queue.items (queue s))) lt :=
  processNext startTime s with Queue.isEmpty (queue s) := {
    | true := mk (queue s) (history s) false (jobCounter s) (suspended s);
    | false with inspect (Queue.dequeue (queue s)) := {
      | exist _ (None, _) _ :=
          mk (queue s) (history s) true (jobCounter s) (suspended s);
      | exist _ (Some j, q') Hdq with inspect (history s !! j) := {
        | exist _ None _ :=
            mk q' (history s) true (jobCounter s) (suspended s);
        | exist _ (Some job) _ with bool_decide (status job = Cancelled) := {
          | true :=
              processNext startTime
                (mk q' (history s) true (jobCounter s) (suspended s));
          | false :=
              mk q' (alter (set_status Processing) j (history s)) true
                 (jobCounter s)
                 (suspended s ++
                    [mkFrame j startTime (estimateRenderTime (effect job))])
          }
        }
      }
    }.
Proof.
  unfold Queue.dequeue in Hdq.
  destruct (Queue.items (queue s)) as [|v rest]; simplify_eq/=. lia.
Qed.

Definition resume (f : Frame) (now startTime' : Z) (s : t) : t :=
  let finish job :=
    set_durationMs (now - f_startTime f) (set_status Done job) in
  processNext startTime'
    (mk (queue s) (alter finish (f_job f) (history s))
        (isProcessing s) (jobCounter s) (suspended s)).

Definition enqueue_accept (params : CreateJobParams) (now : Z) (s : t)
  : RenderJobRef * t :=
  let s1 := cancelPendingForSegment (p_segmentId params) s in
  let counter := jobCounter s1 + 1 in
  let job := mkRenderJob ("job_" +:+ pretty counter) (p_segmentId params)
                         (p_effect params) (p_priority params) now
                         Pending None in
  let ref : RenderJobRef := length (history s1) in
  (ref, mk (Queue.enqueue ref (queue s1)) (history s1 ++ [job])
           (isProcessing s1) counter (suspended s1)).

Definition enqueue (params : CreateJobParams) (now startTime : Z) (s : t)
  : RenderJobRef * t :=
  let '(job, s2) := enqueue_accept params now s in
  (job, if isProcessing s2 then s2 else processNext startTime s2).

Definition getStats (s : t) : QueueStats :=
  let '(counts, renderTimes) :=
    foldl stats_step (mkCounts 0 0 0 0, []) (history s) in
  mkStats (c_pending counts) (c_processing counts) (c_done counts)
          (c_cancelled counts) (average renderTimes).

Definition step (e : Event) (s : t) : option (Output * t) :=
  match e with
  | CallEnqueue params now startTime =>
      let '(job, s') := enqueue params now startTime s in
      Some (RetJob job, s')
  | CallCancelPendingForSegment seg =>
      Some (RetVoid, cancelPendingForSegment seg s)
  | CallGetStats => Some (RetStats (getStats s), s)
  | TimerFires k now startTime =>
      f ← suspended s !! k;
      Some (NoCaller,
            resume f now startTime
              (mk (queue s) (history s) (isProcessing s) (jobCounter s)
                  (delete k (suspended s))))
  end.

Fixpoint run (es : list Event) (s : t) : option (list Output * t) :=
  match es with
  | [] => Some ([], s)
  | e :: es' =>
      '(o, s1) ← step e s;
      '(os, s2) ← run es' s1;
      Some (o :: os, s2)
  end.

End NoSet.

(** Forgetting the set. *)
Definition erase (s : VideoRenderQueue) : NoSet.t :=
  NoSet.mk (queue s) (history s) (isProcessing s) (jobCounter s) (suspended s).

(** ** Vocabulary of the statements *)

(** What a caller or a later step can see of a state: every field but the
    private set [cancelledSegments], which nothing reads. *)
Definition observable (s : VideoRenderQueue)
  : Queue.t RenderJobRef * list RenderJob * bool * Z * list Frame :=
  (queue s, history s, isProcessing s, jobCounter s, suspended s).

(** The status of the job behind a reference. *)
Definition status_at (s : VideoRenderQueue) (r : RenderJobRef)
  : option JobStatus := status <$> history s !! r.

(** A job that is waiting or being rendered. *)
Definition active (job : RenderJob) : Prop :=
  status job = Pending ∨ status job = Processing.

(** At most one job of each segment is pending or processing. *)
Definition one_active_per_segment (s : VideoRenderQueue) : Prop :=
  ∀ i k ji jk,
    history s !! i = Some ji → history s !! k = Some jk →
    active ji → active jk → segmentId ji = segmentId jk → i = k.

(** At most one job of each segment is pending. *)
Definition one_pending_per_segment (s : VideoRenderQueue) : Prop :=
  ∀ i k ji jk,
    history s !! i = Some ji → history s !! k = Some jk →
    status ji = Pending → status jk = Pending →
    segmentId ji = segmentId jk → i = k.

(** At most one job, of any segment, is processing. *)
Definition one_processing (s : VideoRenderQueue) : Prop :=
  ∀ i k ji jk,
    history s !! i = Some ji → history s !! k = Some jk →
    status ji = Processing → status jk = Processing → i = k.

(** [durationMs] is defined exactly on the jobs that are done. *)
Definition duration_iff_done (h : list RenderJob) : Prop :=
  ∀ i job, h !! i = Some job → is_Some (durationMs job) ↔ status job = Done.

(** The arithmetic mean of a list of durations. *)
Definition mean (ds : list Z) : Q :=
  (inject_Z (foldr Z.add 0%Z ds) / inject_Z (Z.of_nat (length ds)))%Q.

(** The jobs of the history that are done. *)
Definition done_jobs (h : list RenderJob) : list RenderJob :=
  filter (λ job, status job = Done) h.

(** [job.priority = v], used to compare calls that differ in priority. *)
Definition set_priority (v : Priority) (job : RenderJob) : RenderJob :=
  mkRenderJob (id job) (segmentId job) (effect job) v
              (createdAt job) (status job) (durationMs job).

(** The part of the invariant that holds at every call of [processNext]
    as well: the counter [_size] is the length of the chain, the queue
    holds distinct jobs that are pending or cancelled, every pending job
    is queued, [durationMs] goes with [done], no segment has two pending
    jobs, and [jobCounter] counts the history. *)
Record Core (s : VideoRenderQueue) : Prop := mkCore {
  core_size :
    Queue._size (queue s) = Z.of_nat (length (Queue.items (queue s)));
  core_queue :
    ∀ r, r ∈ Queue.items (queue s) →
         ∃ job, history s !! r = Some job ∧
                (status job = Pending ∨ status job = Cancelled);
  core_nodup : NoDup (Queue.items (queue s));
  core_queued :
    ∀ i job, history s !! i = Some job → status job = Pending →
             i ∈ Queue.items (queue s);
  core_duration : duration_iff_done (history s);
  core_pending : one_pending_per_segment s;
  core_counter : jobCounter s = Z.of_nat (length (history s))
}.

(** The worker: when [isProcessing] is set, exactly one frame is
    suspended and its job is the only one processing; when it is not,
    nothing is suspended or processing and the queue is empty. *)
Definition Worker (s : VideoRenderQueue) : Prop :=
  if isProcessing s
  then ∃ f job, suspended s = [f] ∧ history s !! f_job f = Some job ∧
                status job = Processing ∧
                ∀ i ji, history s !! i = Some ji →
                        status ji = Processing → i = f_job f
  else suspended s = [] ∧ Queue.items (queue s) = [] ∧
       ∀ i ji, history s !! i = Some ji → status ji ≠ Processing.

(** The invariant of the scheduler between two atomic steps. *)
Record Inv (s : VideoRenderQueue) : Prop := mkInv {
  inv_core : Core s;
  inv_worker : Worker s
}.

(** The states in which [processNext] is called: no frame is suspended
    and no job is processing; the flag [isProcessing] may be either. *)
Record Idle (s : VideoRenderQueue) : Prop := mkIdle {
  idle_core : Core s;
  idle_suspended : suspended s = [];
  idle_processing : ∀ i ji, history s !! i = Some ji → status ji ≠ Processing
}.

(** The sum of the four counters. *)
Definition total (c : Counts) : Z :=
  c_pending c + c_processing c + c_done c + c_cancelled c.

(** The array [renderTimes] that [getStats] builds. *)
Definition recorded_durations (h : list RenderJob) : list Z :=
  omap (λ job, match status job, durationMs job with
               | Done, Some d => Some d
               | _, _ => None
               end) h.

(** The state with the priority of job [i] set to [v]. *)
Definition with_priority (v : Priority) (i : RenderJobRef)
  (s : VideoRenderQueue) : VideoRenderQueue :=
  mkVRQ (queue s) (alter (set_priority v) i (history s))
        (cancelledSegments s) (isProcessing s) (jobCounter s) (suspended s).

(** ** Example runs *)

(** The state a run from [init] ends in. *)
Definition state_after (es : list Event) : VideoRenderQueue :=
  default init (snd <$> run es init).

(** Two submissions for the same segment, the worker idle at the first. *)
Definition resubmit_while_processing : list Event :=
  [CallEnqueue (mkParams "seg_A" "blur" Normal) 0 0;
   CallEnqueue (mkParams "seg_A" "trim" Normal) 10 10].

(** One job submitted and rendered in 300 ms. *)
Definition one_job_done : list Event :=
  [CallEnqueue (mkParams "seg_001" "blur" High) 0 1; TimerFires 0 301 301].

(** Scenario 1 of the source up to the resubmission for [seg_002]: the
    first job is processing, [job_2] is cancelled and still queued. *)
Definition resubmit_seg_002 : list Event :=
  [CallEnqueue (mkParams "seg_001" "color_grade" High) 0 0;
   CallEnqueue (mkParams "seg_002" "blur" Normal) 0 0;
   CallEnqueue (mkParams "seg_003" "transition" Normal) 0 0;
   CallEnqueue (mkParams "seg_002" "speed_change" Normal) 150 150].

Definition drain : list Event :=
  [TimerFires 0 351 351; TimerFires 0 602 602; TimerFires 0 803 803].

(** ** Vocabulary of the further properties *)

(** A call of [enqueue(value)] or of [dequeue()]. *)
Inductive QueueCall (T : Type) : Type :=
| QEnqueue (value : T)
| QDequeue.
Arguments QEnqueue {T} _.
Arguments QDequeue {T}.

(** One call: what it returns ([None] for [void] and for [undefined])
    and the queue it leaves. *)
Definition queue_call {T : Type} (c : QueueCall T) (q : Queue.t T)
  : option T * Queue.t T :=
  match c with
  | QEnqueue value => (None, Queue.enqueue value q)
  | QDequeue => Queue.dequeue q
  end.

(** A sequence of calls, with what each returned. *)
Fixpoint queue_calls {T : Type} (cs : list (QueueCall T)) (q : Queue.t T)
  : list (option T) * Queue.t T :=
  match cs with
  | [] => ([], q)
  | c :: cs' =>
      let '(o, q1) := queue_call c q in
      let '(os, q2) := queue_calls cs' q1 in
      (o :: os, q2)
  end.

(** The calls that are [enqueue] calls. *)
Definition is_enqueue {T : Type} (c : QueueCall T) : bool :=
  match c with QEnqueue _ => true | QDequeue => false end.

(** [Symbol.iterator]: the iterator keeps [current], the chain that is
    left; [next()] gives the value of the node and moves on, or reports
    [done] ([None]) at the end of the chain. *)
Definition Queue_iterator {T : Type} (q : Queue.t T) : list T := Queue.items q.

(** [next()] *)
Definition Iterator_next {T : Type} (current : list T) : option T * list T :=
  match current with
  | value :: rest => (Some value, rest)
  | [] => (None, [])
  end.

(** The spread [[...this]] of [toArray]: [next()] until [done]. *)
Equations? spread {T : Type} (current : list T) : list T
  by wf (length current) lt :=
  spread current with inspect (Iterator_next current) := {
    | exist _ (Some value, rest) Hnext := value :: spread rest;
    | exist _ (None, _) _ := []
    }.
Proof.
  destruct current as [|v r]; simplify_eq/=. lia.
Qed.

(** The queue keeps its counter equal to the length of its chain. *)
Definition Queue_wf {T : Type} (q : Queue.t T) : Prop :=
  Queue._size q = Z.of_nat (length (Queue.items q)).

(** The fields of a job that are set when it is created. *)
Definition same_identity (a b : RenderJob) : Prop :=
  id a = id b ∧ segmentId a = segmentId b ∧ effect a = effect b ∧
  priority a = priority b ∧ createdAt a = createdAt b.

(** What one atomic step can do to the status of a job. *)
Inductive status_step : JobStatus → JobStatus → Prop :=
| status_stays st : status_step st st
| status_starts : status_step Pending Processing
| status_cancels : status_step Pending Cancelled
| status_finishes : status_step Processing Done.

(** What any number of steps can do to it. *)
Definition status_le (a b : JobStatus) : Prop :=
  a = b ∨ a = Pending ∨ (a = Processing ∧ b = Done).

(** One atomic step on one job: the record before and after. *)
Definition job_step (job job' : RenderJob) : Prop :=
  same_identity job job' ∧ status_step (status job) (status job') ∧
  (status job' = status job → job' = job) ∧
  (status job' ≠ Done → durationMs job' = durationMs job).

(** The events that are calls of [enqueue]. *)
Definition is_CallEnqueue (e : Event) : bool :=
  match e with CallEnqueue _ _ _ => true | _ => false end.

(** The id of the job at each position of the history. *)
Definition ids_by_position (s : VideoRenderQueue) : Prop :=
  ∀ i job, history s !! i = Some job →
           id job = "job_" +:+ pretty (Z.of_nat i + 1).

(** A job that the worker has taken from the queue and not skipped. *)
Definition started (job : RenderJob) : Prop :=
  status job = Processing ∨ status job = Done.

(** The order kept by the scheduler: the queue lists jobs in the order
    of their creation; every started job was created before all queued
    ones; and whatever was created before a started job is done or
    cancelled. *)
Record Fifo (s : VideoRenderQueue) : Prop := mkFifo {
  fifo_sorted : StronglySorted lt (Queue.items (queue s));
  fifo_ahead :
    ∀ i job r, history s !! i = Some job → started job →
               r ∈ Queue.items (queue s) → (i < r)%nat;
  fifo_settled :
    ∀ i k ji jk, history s !! i = Some ji → history s !! k = Some jk →
                 (i < k)%nat → started jk →
                 status ji = Done ∨ status ji = Cancelled
}.

(** The number of jobs of a history that have a given status. *)
Definition count_status (st : JobStatus) (h : list RenderJob) : Z :=
  Z.of_nat (length (filter (λ job, status job = st) h)).

(** The timer of the first suspended frame firing [n] times, with the
    clock readings [clock k] at the [k]-th firing. *)
Definition timer_events (clock : nat → Z * Z) (n : nat) : list Event :=
  (λ k, TimerFires 0 (clock k).1 (clock k).2) <$> seq 0 n.

(** The positions of the pending jobs of a history, shifted by [g]. *)
Definition pending_refs (g : nat → nat) (h : list RenderJob) : list nat :=
  omap (λ x, x)
       (imap (λ i job, if decide (status job = Pending)
                       then Some (g i) else None) h).

(** ** The print spooler

    The second program of the repository ([colas.ts], given twice, with
    Spanish and with English names): a print queue in which a job of
    high priority is put at the front.  Its [Queue] class is the one
    above with one more method, [enqueueFront]. *)

Module Spooler.

(** [type Priority = "high" | "normal"] *)
Inductive Priority : Type := High | Normal.

(** [type JobStatus = "waiting" | "printing" | "completed"] *)
Inductive JobStatus : Type := Waiting | Printing | Completed.

#[global] Instance Priority_dec : EqDecision Priority.
Proof. solve_decision. Defined.

#[global] Instance JobStatus_dec : EqDecision JobStatus.
Proof. solve_decision. Defined.

(** [interface PrintJob]; [pages] is a whole number of pages. *)
Record PrintJob : Type := mkPrintJob {
  id : string;
  student : string;
  document : string;
  pages : Z;
  priority : Priority;
  sentAt : string;
  status : JobStatus;
  printTimeMs : option Z
}.

(** [type NewJob = Omit<PrintJob, "id" | "status" | "printTimeMs">] *)
Record NewJob : Type := mkNewJob {
  n_student : string;
  n_document : string;
  n_pages : Z;
  n_priority : Priority;
  n_sentAt : string
}.

(** [interface SessionStats] *)
Record SessionStats : Type := mkSessionStats {
  totalJobs : Z;
  completed : Z;
  totalPages : Z;
  averageTimeMs : Z;
  attendanceOrder : list string
}.

Definition set_status (v : JobStatus) (job : PrintJob) : PrintJob :=
  mkPrintJob (id job) (student job) (document job) (pages job) (priority job)
             (sentAt job) v (printTimeMs job).

Definition set_printTimeMs (v : Z) (job : PrintJob) : PrintJob :=
  mkPrintJob (id job) (student job) (document job) (pages job) (priority job)
             (sentAt job) (status job) (Some v).

(** [Queue.enqueueFront(value)]: the new node becomes [head]. *)
Definition enqueueFront {T : Type} (value : T) (q : Queue.t T) : Queue.t T :=
  Queue.mk (value :: Queue.items q) (Queue._size q + 1).

(** [s.padStart(n, c)] for a pad of one character. *)
Definition padStart (n : nat) (c : Ascii.ascii) (s : string) : string :=
  String.string_of_list_ascii (replicate (n - String.length s) c) +:+ s.

(** The locals [job] and [totalTime] of a [processQueue] call suspended
    at [await wait(totalTime)]. *)
Record Frame : Type := mkFrame { f_job : nat; f_totalTime : Z }.

(** [class PrintSpooler]: its fields, and the calls of [processQueue]
    that are waiting for their timer.  As for the render queue, the
    history is the store of the job objects and a reference to a job is
    its position in it. *)
Record t : Type := mk {
  queue : Queue.t nat;
  history : list PrintJob;
  jobCounter : Z;
  suspended : list Frame
}.

Definition MS_PER_PAGE : Z := 500.

(** [new PrintSpooler()] *)
Definition init : t := mk Queue.empty [] 0 [].

(** [sendToPrint(data)] *)
Definition sendToPrint (data : NewJob) (s : t) : nat * t :=
  let counter := jobCounter s + 1 in
  let job := mkPrintJob ("DOC-" +:+ padStart 3 "0"%char (pretty counter))
                        (n_student data) (n_document data) (n_pages data)
                        (n_priority data) (n_sentAt data) Waiting None in
  let ref := length (history s) in
  let q := match priority job with
           | High => enqueueFront ref (queue s)
           | Normal => Queue.enqueue ref (queue s)
           end in
  (ref, mk q (history s ++ [job]) counter (suspended s)).

(** [processQueue()] from the test of its [while] to the [await] in the
    body: the loop ends when the queue is empty; otherwise the head job
    is taken and set to printing, and the call waits.  [job] is
    [undefined] when [dequeue] finds no head although [_size] is not 0;
    [job.status = ...] then faults and the call ends. *)
Definition processQueue_loop (s : t) : t :=
  if Queue.isEmpty (queue s) then s
  else
    match Queue.dequeue (queue s) with
    | (None, _) => s
    | (Some j, q') =>
        match history s !! j with
        | None => mk q' (history s) (jobCounter s) (suspended s)
        | Some job =>
            let totalTime := pages job * MS_PER_PAGE in
            mk q' (alter (set_status Printing) j (history s)) (jobCounter s)
               (suspended s ++ [mkFrame j totalTime])
        end
    end.

(** [processQueue()], the call. *)
Definition processQueue (s : t) : t := processQueue_loop s.

(** The rest of the body after the [await], then the loop again. *)
Definition resume (f : Frame) (s : t) : t :=
  let finish job := set_printTimeMs (f_totalTime f) (set_status Completed job) in
  processQueue_loop
    (mk (queue s) (alter finish (f_job f) (history s)) (jobCounter s)
        (suspended s)).

(** [getStats()] *)
Definition getStats (s : t) : SessionStats :=
  let completedJobs := filter (λ j, status j = Completed) (history s) in
  let pagesSum := foldl (λ acc j, acc + pages j) 0 (history s) in
  let times := omap printTimeMs completedJobs in
  mkSessionStats (Z.of_nat (length (history s)))
                 (Z.of_nat (length completedJobs))
                 pagesSum (average times) (student <$> completedJobs).

Inductive Event : Type :=
| CallSendToPrint (data : NewJob)
| CallProcessQueue
| CallGetStats
| TimerFires (k : nat).

Inductive Output : Type :=
| RetJob (job : nat)
| RetPromise
| RetStats (stats : SessionStats)
| NoCaller.

Definition step (e : Event) (s : t) : option (Output * t) :=
  match e with
  | CallSendToPrint data =>
      let '(job, s') := sendToPrint data s in Some (RetJob job, s')
  | CallProcessQueue => Some (RetPromise, processQueue s)
  | CallGetStats => Some (RetStats (getStats s), s)
  | TimerFires k =>
      f ← suspended s !! k;
      Some (NoCaller,
            resume f (mk (queue s) (history s) (jobCounter s)
                         (delete k (suspended s))))
  end.

Fixpoint run (es : list Event) (s : t) : option (list Output * t) :=
  match es with
  | [] => Some ([], s)
  | e :: es' =>
      '(o, s1) ← step e s;
      '(os, s2) ← run es' s1;
      Some (o :: os, s2)
  end.

Definition reachable (s : t) : Prop := ∃ es os, run es init = Some (os, s).

End Spooler.

(** Sending the jobs [ds] one after the other. *)
Definition send_all (ds : list Spooler.NewJob) (s : Spooler.t) : Spooler.t :=
  foldl (λ s d, (Spooler.sendToPrint d s).2) s ds.

(** The references that the jobs of [ds] with priority [p] get when the
    first of [ds] gets [off]. *)
Definition refs_with (p : Spooler.Priority) (off : nat)
  (ds : list Spooler.NewJob) : list nat :=
  omap (λ x, x)
       (imap (λ i d, if decide (Spooler.n_priority d = p)
                     then Some (off + i)%nat else None) ds).

(** The invariant of the spooler between two atomic steps, whatever the
    number of [processQueue] calls in progress. *)
Record SInv (s : Spooler.t) : Prop := mkSInv {
  s_size :
    Queue._size (Spooler.queue s)
    = Z.of_nat (length (Queue.items (Spooler.queue s)));
  s_queue :
    ∀ r, r ∈ Queue.items (Spooler.queue s) →
         ∃ job, Spooler.history s !! r = Some job ∧
                Spooler.status job = Spooler.Waiting;
  s_nodup : NoDup (Queue.items (Spooler.queue s));
  s_queued :
    ∀ i job, Spooler.history s !! i = Some job →
             Spooler.status job = Spooler.Waiting →
             i ∈ Queue.items (Spooler.queue s);
  s_time :
    ∀ i job, Spooler.history s !! i = Some job →
             Spooler.printTimeMs job =
             if decide (Spooler.status job = Spooler.Completed)
             then Some (Spooler.pages job * Spooler.MS_PER_PAGE) else None;
  s_frames :
    ∀ f, f ∈ Spooler.suspended s →
         ∃ job, Spooler.history s !! Spooler.f_job f = Some job ∧
                Spooler.status job = Spooler.Printing ∧
                Spooler.f_totalTime f
                = Spooler.pages job * Spooler.MS_PER_PAGE;
  s_frames_nodup : NoDup (Spooler.f_job <$> Spooler.suspended s);
  s_printing :
    ∀ i job, Spooler.history s !! i = Some job →
             Spooler.status job = Spooler.Printing →
             i ∈ Spooler.f_job <$> Spooler.suspended s
}.

(** Two students and the teacher, the printer started once and its
    timer fired twice. *)
Definition classroom : list Spooler.Event :=
  [Spooler.CallSendToPrint
     (Spooler.mkNewJob "Valentina" "OOP_Workshop.pdf" 3 Spooler.Normal "08:01");
   Spooler.CallSendToPrint
     (Spooler.mkNewJob "Camilo" "DB_Report.pdf" 5 Spooler.Normal "08:01");
   Spooler.CallSendToPrint
     (Spooler.mkNewJob "Teacher" "Grades_List.pdf" 1 Spooler.High "08:05");
   Spooler.CallProcessQueue; Spooler.TimerFires 0; Spooler.TimerFires 0].

(** The state a run of the spooler from [Spooler.init] ends in. *)
Definition spooler_after (es : list Spooler.Event) : Spooler.t :=
  default Spooler.init (snd <$> Spooler.run es Spooler.init).

(** * Properties *)

(** ** The equation of [processNext] *)

Lemma processNext_eq t s :
  processNext t s =
  if Queue.isEmpty (queue s)
  then mkVRQ (queue s) (history s) (cancelledSegments s) false
             (jobCounter s) (suspended s)
  else
    match Queue.items (queue s) with
    | [] => mkVRQ (queue s) (history s) (cancelledSegments s) true
                  (jobCounter s) (suspended s)
    | j :: rest =>
        let q' := Queue.mk rest (Queue._size (queue s) - 1) in
        match history s !! j with
        | None => mkVRQ q' (history s) (cancelledSegments s) true
                        (jobCounter s) (suspended s)
        | Some job =>
            if bool_decide (status job = Cancelled)
            then processNext t (mkVRQ q' (history s) (cancelledSegments s)
                                      true (jobCounter s) (suspended s))
            else mkVRQ q' (alter (set_status Processing) j (history s))
                       (cancelledSegments s) true (jobCounter s)
                       (suspended s ++
                          [mkFrame j t (estimateRenderTime (effect job))])
        end
    end.
Proof.
  funelim (processNext t s); rewrite <- ?Heqcall; clear Heqcall.
  all: repeat match goal with
         | H : _ = sigmaI _ _ _ |- _ => clear H
         | H : Queue.isEmpty _ = _ |- _ => rewrite H; clear H
         | H : Queue.dequeue (queue ?s0) = _ |- _ =>
             unfold Queue.dequeue in H;
             destruct (Queue.items (queue s0)) as [|v rest]; simplify_eq/=
         | H : history _ !! _ = _ |- _ => rewrite H; clear H
         | H : bool_decide _ = _ |- _ => rewrite H; clear H
         end; try done.
Qed.

(** ** The cancellation loop on one job *)

Lemma cancel_if_pending_hit seg job :
  segmentId job = seg → status job = Pending →
  cancel_if_pending seg job = set_status Cancelled job.
Proof.
  intros Hseg Hst. unfold cancel_if_pending.
  by rewrite !bool_decide_eq_true_2.
Qed.

Lemma cancel_if_pending_miss seg job :
  ¬ (segmentId job = seg ∧ status job = Pending) →
  cancel_if_pending seg job = job.
Proof.
  intros Hno. unfold cancel_if_pending.
  repeat case_bool_decide; simpl; tauto.
Qed.

Lemma cancel_if_pending_cases seg job :
  (segmentId job = seg ∧ status job = Pending ∧
   cancel_if_pending seg job = set_status Cancelled job) ∨
  (¬ (segmentId job = seg ∧ status job = Pending) ∧
   cancel_if_pending seg job = job).
Proof.
  destruct (decide (segmentId job = seg ∧ status job = Pending)) as [[? ?]|Hno].
  - left. auto using cancel_if_pending_hit.
  - right. auto using cancel_if_pending_miss.
Qed.

Lemma cancel_if_pending_segmentId seg job :
  segmentId (cancel_if_pending seg job) = segmentId job.
Proof. by destruct (cancel_if_pending_cases seg job) as [(_&_&->)|[_ ->]]. Qed.

Lemma cancel_if_pending_durationMs seg job :
  durationMs (cancel_if_pending seg job) = durationMs job.
Proof. by destruct (cancel_if_pending_cases seg job) as [(_&_&->)|[_ ->]]. Qed.

Lemma cancel_if_pending_idem seg job :
  cancel_if_pending seg (cancel_if_pending seg job) = cancel_if_pending seg job.
Proof.
  destruct (cancel_if_pending_cases seg job) as [(_&_&->)|[Hno ->]].
  - apply cancel_if_pending_miss. simpl. intros [_ ?]. discriminate.
  - by apply cancel_if_pending_miss.
Qed.

Lemma cancel_if_pending_Pending seg job :
  status (cancel_if_pending seg job) = Pending →
  status job = Pending ∧ segmentId job ≠ seg ∧ cancel_if_pending seg job = job.
Proof.
  destruct (cancel_if_pending_cases seg job) as [(_&_&->)|[Hno ->]]; simpl.
  - discriminate.
  - intros Hp. split_and!; [done| |done]. intros Hs. apply Hno. done.
Qed.

Lemma cancel_if_pending_other seg job st :
  st ≠ Pending → st ≠ Cancelled →
  status (cancel_if_pending seg job) = st → cancel_if_pending seg job = job.
Proof.
  intros Hp Hc.
  destruct (cancel_if_pending_cases seg job) as [(_&_&->)|[Hno ->]]; simpl;
    [congruence|done].
Qed.

Lemma cancel_if_pending_queued seg job :
  status job = Pending ∨ status job = Cancelled →
  status (cancel_if_pending seg job) = Pending ∨
  status (cancel_if_pending seg job) = Cancelled.
Proof.
  destruct (cancel_if_pending_cases seg job) as [(_&_&->)|[Hno ->]]; simpl; auto.
Qed.

Lemma cancel_if_pending_status_inv seg job st :
  status (cancel_if_pending seg job) = st → st ≠ Cancelled → status job = st.
Proof.
  destruct (cancel_if_pending_cases seg job) as [(_&_&->)|[Hno ->]]; simpl;
    congruence.
Qed.

(** Looking a job up after the loop. *)
Lemma lookup_cancel seg (h : list RenderJob) i :
  (cancel_if_pending seg <$> h) !! i = cancel_if_pending seg <$> h !! i.
Proof. apply list_lookup_fmap. Qed.

Lemma lookup_cancel_Some seg (h : list RenderJob) i job' :
  (cancel_if_pending seg <$> h) !! i = Some job' →
  ∃ job, h !! i = Some job ∧ job' = cancel_if_pending seg job.
Proof.
  rewrite lookup_cancel. destruct (h !! i) as [job|]; simpl; [|done].
  intros [= <-]. eauto.
Qed.

(** ** The invariant *)

(** Reading a field of a state that an operation has just built. *)
Ltac fields :=
  cbn [queue history cancelledSegments isProcessing jobCounter suspended
       Queue.items Queue._size Queue.enqueue cancelPendingForSegment
       enqueue_accept fst snd] in *.

Lemma Inv_init : Inv init.
Proof.
  split; [split|]; simpl; try done.
  - intros r Hr. by apply elem_of_nil in Hr.
  - constructor.
Qed.

(** A status change of one job, seen from another position or the same. *)
Lemma lookup_alter_Some (g : RenderJob → RenderJob) (h : list RenderJob) j i job' :
  alter g j h !! i = Some job' →
  (i = j ∧ ∃ job, h !! i = Some job ∧ job' = g job) ∨
  (i ≠ j ∧ h !! i = Some job').
Proof.
  destruct (decide (i = j)) as [->|Hne].
  - rewrite list_lookup_alter_eq. destruct (h !! j) as [job|]; simpl; [|done].
    intros [= <-]. left. eauto.
  - rewrite list_lookup_alter_ne by done. auto.
Qed.

Lemma lookup_snoc_Some (h : list RenderJob) job i job' :
  (h ++ [job]) !! i = Some job' →
  (h !! i = Some job' ∧ (i < length h)%nat) ∨ (i = length h ∧ job' = job).
Proof.
  intros [Hi|(Hge & Hi)]%lookup_app_Some.
  - left. split; [done|]. by eapply lookup_lt_Some.
  - right. apply list_lookup_singleton_Some in Hi as [Hz ->].
    split; [lia|done].
Qed.

(** *** The loop of [cancelPendingForSegment] *)

Lemma Core_cancelPendingForSegment seg s :
  Core s → Core (cancelPendingForSegment seg s).
Proof.
  intros [Hsz Hq Hnd Hqd Hdur Hpen Hcnt]. split; fields; try done.
  - intros r Hr. destruct (Hq r Hr) as (job & Hjob & Hst).
    exists (cancel_if_pending seg job). rewrite lookup_cancel, Hjob.
    split; [done|]. by apply cancel_if_pending_queued.
  - intros i job' (job & Hjob & ->)%lookup_cancel_Some Hst.
    apply cancel_if_pending_Pending in Hst as (Hst & _). eauto.
  - intros i job' (job & Hjob & ->)%lookup_cancel_Some.
    rewrite cancel_if_pending_durationMs. pose proof (Hdur i job Hjob) as Hd.
    rewrite Hd. split; intros Hst.
    + destruct (cancel_if_pending_cases seg job) as [(_&?&->)|[Hno ->]];
        [congruence|done].
    + by apply cancel_if_pending_status_inv in Hst.
  - intros i k ji' jk' (ji & Hi & ->)%lookup_cancel_Some
      (jk & Hk & ->)%lookup_cancel_Some Hsi Hsk.
    rewrite !cancel_if_pending_segmentId.
    apply cancel_if_pending_Pending in Hsi as (Hsi & _).
    apply cancel_if_pending_Pending in Hsk as (Hsk & _). eauto.
  - by rewrite length_fmap.
Qed.

Lemma Worker_cancelPendingForSegment seg s :
  Worker s → Worker (cancelPendingForSegment seg s).
Proof.
  unfold Worker. fields. intros Hw. destruct (isProcessing s).
  - destruct Hw as (f & job & Hf & Hjob & Hst & Huniq).
    exists f, job. split_and!; try done.
    + rewrite lookup_cancel, Hjob. simpl. f_equal.
      apply cancel_if_pending_miss. intros [_ ?]. congruence.
    + intros i ji' (ji & Hi & ->)%lookup_cancel_Some Hsi.
      apply cancel_if_pending_status_inv in Hsi; [|done]. eauto.
  - destruct Hw as (Hf & Hits & Hnone). split_and!; try done.
    intros i ji' (ji & Hi & ->)%lookup_cancel_Some Hsi.
    apply cancel_if_pending_status_inv in Hsi; [|done]. by eapply Hnone.
Qed.

Lemma Inv_cancelPendingForSegment seg s :
  Inv s → Inv (cancelPendingForSegment seg s).
Proof.
  intros [Hc Hw]. split;
    auto using Core_cancelPendingForSegment, Worker_cancelPendingForSegment.
Qed.

(** No job of the segment is pending after the loop. *)
Lemma cancelPendingForSegment_none_pending seg s i job :
  history (cancelPendingForSegment seg s) !! i = Some job →
  segmentId job = seg → status job ≠ Pending.
Proof.
  fields. intros (job0 & Hjob & ->)%lookup_cancel_Some Hseg Hst.
  apply cancel_if_pending_Pending in Hst as (_ & Hne & _).
  by rewrite cancel_if_pending_segmentId in Hseg.
Qed.

(** *** [processNext] *)

(** Dropping a cancelled head. *)
Lemma Core_skip s j rest :
  Core s → Queue.items (queue s) = j :: rest →
  (∀ job, history s !! j = Some job → status job = Cancelled) →
  ∀ cs b fs,
    Core (mkVRQ (Queue.mk rest (Queue._size (queue s) - 1)) (history s)
                cs b (jobCounter s) fs).
Proof.
  intros [Hsz Hq Hnd Hqd Hdur Hpen Hcnt] Hits Hc cs b fs. rewrite Hits in *.
  apply NoDup_cons in Hnd as [Hj Hnd]. split; fields; try done.
  - simpl in Hsz. lia.
  - intros r Hr. apply Hq. by right.
  - intros i ji Hi Hp.
    pose proof (Hqd i ji Hi Hp) as [->|Hin]%elem_of_cons; [|done].
    apply Hc in Hi. congruence.
Qed.

(** Starting a pending head. *)
Lemma Core_start s j rest job :
  Core s → Queue.items (queue s) = j :: rest →
  history s !! j = Some job → status job = Pending →
  ∀ cs b fs,
    Core (mkVRQ (Queue.mk rest (Queue._size (queue s) - 1))
                (alter (set_status Processing) j (history s))
                cs b (jobCounter s) fs).
Proof.
  intros [Hsz Hq Hnd Hqd Hdur Hpen Hcnt] Hits Hjob Hp cs b fs.
  rewrite Hits in *.
  apply NoDup_cons in Hnd as [Hj Hnd]. split; fields; try done.
  - simpl in Hsz. lia.
  - intros r Hr. destruct (Hq r) as (jr & Hjr & Hsr); [by right|].
    exists jr. split; [|done].
    rewrite list_lookup_alter_ne; [done|]. intros ->. done.
  - intros i ji [[-> (j0 & Hj0 & ->)]|[Hne Hi]]%lookup_alter_Some Hpi;
      [done|].
    pose proof (Hqd i ji Hi Hpi) as [->|Hin]%elem_of_cons; [done|done].
  - intros i ji [[-> (j0 & Hj0 & ->)]|[Hne Hi]]%lookup_alter_Some.
    + simpl. pose proof (Hdur j j0 Hj0) as Hd.
      assert (j0 = job) as -> by congruence.
      split; [intros Hs%Hd; congruence|done].
    + exact (Hdur i ji Hi).
  - intros i k ji jk [[-> (j0 & Hj0 & ->)]|[Hne Hi]]%lookup_alter_Some
      [[-> (j1 & Hj1 & ->)]|[Hne' Hk]]%lookup_alter_Some; try done.
    apply Hpen; done.
  - by rewrite length_alter.
Qed.

(** [processNext] re-establishes the invariant from an idle state. *)
Lemma Inv_processNext t s : Idle s → Inv (processNext t s).
Proof.
  remember (Queue.items (queue s)) as its eqn:Hits.
  revert s Hits. induction its as [|j rest IH]; intros s Hits HI;
    symmetry in Hits; rewrite processNext_eq, Hits;
    pose proof HI as [HC Hsus Hnone]; pose proof (core_size _ HC) as Hsz;
    rewrite Hits in Hsz; simpl in Hsz;
    destruct (Queue.isEmpty (queue s)) eqn:Hemp;
    unfold Queue.isEmpty in Hemp; try lia.
  - split; [by destruct HC|]. unfold Worker. fields. done.
  - destruct (core_queue _ HC j) as (job & Hjob & Hst); [rewrite Hits; left|].
    rewrite Hjob. cbn zeta. case_bool_decide as Hc.
    + apply IH; [done|]. split; fields; try done.
      apply (Core_skip s j rest); [done..|]. intros job' ?. congruence.
    + destruct Hst as [Hp|]; [|done]. split.
      * by apply (Core_start s j rest job).
      * unfold Worker. fields. rewrite Hsus.
        eexists _, (set_status Processing job). split_and!; [done| |done|].
        -- simpl. by rewrite list_lookup_alter_eq, Hjob.
        -- intros i ji [[-> _]|[Hne Hi]]%lookup_alter_Some Hpi; [done|].
           by destruct (Hnone i ji Hi).
Qed.

(** *** [enqueue] *)

Lemma Core_enqueue_accept params now s :
  Core s → Core (enqueue_accept params now s).2.
Proof.
  intros HC. apply (Core_cancelPendingForSegment (p_segmentId params)) in HC.
  pose proof (cancelPendingForSegment_none_pending (p_segmentId params) s)
    as Hfresh.
  destruct HC as [Hsz Hq Hnd Hqd Hdur Hpen Hcnt].
  unfold enqueue_accept.
  set (s1 := cancelPendingForSegment (p_segmentId params) s) in *.
  clearbody s1.
  split; cbn [snd queue history jobCounter Queue.enqueue Queue.items Queue._size].
  - rewrite length_app. simpl. lia.
  - intros r [Hr| ->%list_elem_of_singleton]%elem_of_app.
    + destruct (Hq r Hr) as (job & Hjob & Hst). exists job.
      split; [|done]. rewrite lookup_app_l; [done|]. by eapply lookup_lt_Some.
    + eexists. rewrite list_lookup_middle by done. split; [done|]. by left.
  - apply NoDup_app. split_and!; [done| |apply NoDup_singleton].
    intros r Hr ->%list_elem_of_singleton.
    destruct (Hq _ Hr) as (job & Hjob%lookup_lt_Some & _). lia.
  - intros i job [[Hi _]|[-> ->]]%lookup_snoc_Some Hp; apply elem_of_app.
    + left. eauto.
    + right. by apply list_elem_of_singleton.
  - intros i job [[Hi _]|[-> ->]]%lookup_snoc_Some; [exact (Hdur i job Hi)|].
    simpl. split; [by intros [? ?]|done].
  - intros i k ji jk [[Hi Hli]|[-> ->]]%lookup_snoc_Some
      [[Hk Hlk]|[-> ->]]%lookup_snoc_Some Hsi Hsk Hseg; simpl in *.
    + eapply Hpen; eauto.
    + by destruct (Hfresh i ji Hi Hseg).
    + by destruct (Hfresh k jk Hk (eq_sym Hseg)).
    + done.
  - rewrite length_app, Hcnt. simpl. lia.
Qed.

(** The jobs of the history after the first part of [enqueue]. *)
Lemma enqueue_accept_lookup params now s i job :
  history (enqueue_accept params now s).2 !! i = Some job →
  (∃ old, history s !! i = Some old ∧
          job = cancel_if_pending (p_segmentId params) old) ∨
  (i = length (history s) ∧ status job = Pending ∧ durationMs job = None ∧
   segmentId job = p_segmentId params).
Proof.
  unfold enqueue_accept. fields.
  intros [[Hi _]|[-> ->]]%lookup_snoc_Some.
  - left. by apply lookup_cancel_Some.
  - right. by rewrite length_fmap.
Qed.

Lemma enqueue_accept_isProcessing params now s :
  isProcessing (enqueue_accept params now s).2 = isProcessing s.
Proof. done. Qed.

Lemma enqueue_accept_suspended params now s :
  suspended (enqueue_accept params now s).2 = suspended s.
Proof. done. Qed.

Lemma enqueue_accept_old params now s i old :
  history s !! i = Some old →
  history (enqueue_accept params now s).2 !! i
  = Some (cancel_if_pending (p_segmentId params) old).
Proof.
  intros Hi. unfold enqueue_accept. fields.
  rewrite lookup_app_l by (rewrite length_fmap; by eapply lookup_lt_Some).
  by rewrite lookup_cancel, Hi.
Qed.

Lemma enqueue_accept_Processing params now s i job :
  history (enqueue_accept params now s).2 !! i = Some job →
  status job = Processing → history s !! i = Some job.
Proof.
  intros [(old & Hold & ->)|(_ & Hp & _)]%enqueue_accept_lookup Hst;
    [|congruence].
  by rewrite (cancel_if_pending_other _ _ Processing).
Qed.

Lemma Inv_enqueue params now t s : Inv s → Inv (enqueue params now t s).2.
Proof.
  intros [HC HW]. unfold enqueue.
  pose proof (Core_enqueue_accept params now s HC) as HC2.
  pose proof (enqueue_accept_isProcessing params now s) as Hflag.
  pose proof (enqueue_accept_suspended params now s) as Hsus.
  pose proof (enqueue_accept_Processing params now s) as Hproc.
  pose proof (enqueue_accept_old params now s) as Hold.
  destruct (enqueue_accept params now s) as [job s2]. simpl in *.
  unfold Worker in HW. rewrite Hflag. destruct (isProcessing s) eqn:Hb.
  - split; [done|]. unfold Worker. rewrite Hflag, Hsus.
    destruct HW as (f & jf & Hf & Hjf & Hst & Huniq).
    exists f, jf. split_and!; [done| |done|].
    + rewrite (Hold _ _ Hjf). f_equal. apply cancel_if_pending_miss.
      intros [_ ?]. congruence.
    + intros i ji Hi Hsi. eauto.
  - destruct HW as (Hnil & _ & Hnone). apply Inv_processNext.
    split; [done|congruence|]. intros i ji Hi Hsi.
    eapply Hnone; eauto.
Qed.

(** *** The timer of a suspended frame *)

Lemma Core_finish s j job d :
  Core s → history s !! j = Some job → status job = Processing →
  ∀ cs b fs,
    Core (mkVRQ (queue s)
                (alter (λ job, set_durationMs d (set_status Done job)) j
                       (history s))
                cs b (jobCounter s) fs).
Proof.
  intros [Hsz Hq Hnd Hqd Hdur Hpen Hcnt] Hjob Hst cs b fs.
  split; fields; try done.
  - intros r Hr. destruct (Hq r Hr) as (jr & Hjr & Hsr). exists jr.
    split; [|done]. rewrite list_lookup_alter_ne; [done|].
    intros ->. destruct Hsr; congruence.
  - intros i ji [[-> (j0 & Hj0 & ->)]|[Hne Hi]]%lookup_alter_Some Hpi;
      [done|eauto].
  - intros i ji [[-> (j0 & Hj0 & ->)]|[Hne Hi]]%lookup_alter_Some.
    + simpl. split; [done|by eexists].
    + exact (Hdur i ji Hi).
  - intros i k ji jk [[-> (j0 & Hj0 & ->)]|[Hne Hi]]%lookup_alter_Some
      [[-> (j1 & Hj1 & ->)]|[Hne' Hk]]%lookup_alter_Some; try done.
    apply Hpen; done.
  - by rewrite length_alter.
Qed.

Lemma Inv_timer k now t s o s' :
  Inv s → step (TimerFires k now t) s = Some (o, s') → Inv s'.
Proof.
  intros [HC HW]. simpl. destruct (suspended s !! k) as [f|] eqn:Hk; [|done].
  simpl. intros [= <- <-]. unfold Worker in HW.
  destruct (isProcessing s).
  - destruct HW as (f' & jf & Hf & Hjf & Hst & Huniq).
    rewrite Hf in Hk |- *. destruct k as [|k]; [|done].
    simpl in Hk. injection Hk as ->. unfold resume. fields.
    apply Inv_processNext. split; fields.
    + by apply (Core_finish s (f_job f) jf).
    + done.
    + intros i ji [[-> (j0 & Hj0 & ->)]|[Hne Hi]]%lookup_alter_Some Hsi;
        [done|]. by apply Hne, Huniq with ji.
  - destruct HW as (Hnil & _). by rewrite Hnil in Hk.
Qed.

(** *** Every reachable state satisfies the invariant *)

Lemma Inv_step e s o s' : Inv s → step e s = Some (o, s') → Inv s'.
Proof.
  intros HI. destruct e as [params now t|seg| |k now t].
  - cbn [step]. pose proof (Inv_enqueue params now t s HI) as HI'.
    destruct (enqueue params now t s) as [job s2]. by intros [= <- <-].
  - simpl. intros [= <- <-]. by apply Inv_cancelPendingForSegment.
  - simpl. by intros [= <- <-].
  - by apply Inv_timer.
Qed.

Lemma run_cons e es s :
  run (e :: es) s =
  '(o, s1) ← step e s; '(os, s2) ← run es s1; Some (o :: os, s2).
Proof. done. Qed.

Lemma Inv_run es : ∀ s os s', Inv s → run es s = Some (os, s') → Inv s'.
Proof.
  induction es as [|e es IH]; intros s os s' HI.
  - simpl. by intros [= <- <-].
  - rewrite run_cons. destruct (step e s) as [[o s1]|] eqn:He; [|done].
    simpl. destruct (run es s1) as [[os1 s2]|] eqn:Hr; [|done].
    simpl. intros [= <- <-]. eauto using Inv_step.
Qed.

Lemma reachable_Inv s : reachable s → Inv s.
Proof. intros (es & os & Hr). eapply Inv_run; [apply Inv_init|done]. Qed.

Lemma run_app es1 : ∀ es2 s,
  run (es1 ++ es2) s =
  '(os1, s1) ← run es1 s; '(os2, s2) ← run es2 s1; Some (os1 ++ os2, s2).
Proof.
  induction es1 as [|e es1 IH]; intros es2 s.
  - simpl. by destruct (run es2 s) as [[os2 s2]|].
  - rewrite <- app_comm_cons, !run_cons.
    destruct (step e s) as [[o s1]|]; [|done]. simpl. rewrite IH.
    destruct (run es1 s1) as [[os1 s1']|]; [|done]. simpl.
    by destruct (run es2 s1') as [[os2 s2]|].
Qed.

Lemma reachable_init : reachable init.
Proof. by exists [], []. Qed.

Lemma reachable_run es s os s' :
  reachable s → run es s = Some (os, s') → reachable s'.
Proof.
  intros (es0 & os0 & H0) Hr. exists (es0 ++ es), (os0 ++ os).
  by rewrite run_app, H0; simpl; rewrite Hr.
Qed.

(** ** Supersession leaves room for one pending and one processing job *)

Lemma reachable_state_after_resubmit :
  reachable (state_after resubmit_while_processing).
Proof. eexists resubmit_while_processing, _. vm_compute. reflexivity. Qed.

(** C2, as stated, fails: after two submissions for one segment the first
    job is processing and the second is pending, both of that segment. *)
Lemma two_active_jobs_of_one_segment :
  reachable (state_after resubmit_while_processing) ∧
  ¬ one_active_per_segment (state_after resubmit_while_processing).
Proof.
  split; [apply reachable_state_after_resubmit|].
  intros H.
  specialize (H 0%nat 1%nat
    (mkRenderJob "job_1" "seg_A" "blur" Normal 0 Processing None)
    (mkRenderJob "job_2" "seg_A" "trim" Normal 10 Pending None)).
  assert (0 = 1)%nat as Habs; [|discriminate].
  apply H; [reflexivity|reflexivity|by right|by left|done].
Qed.

(** C2, amended: in every reachable state each segment has at most one
    pending job, and the whole history has at most one processing job. *)
Theorem one_pending_per_segment_one_processing s :
  reachable s → one_pending_per_segment s ∧ one_processing s.
Proof.
  intros [HC HW]%reachable_Inv. split; [by destruct HC|].
  intros i k ji jk Hi Hk Hsi Hsk. unfold Worker in HW.
  destruct (isProcessing s).
  - destruct HW as (f & job & _ & _ & _ & Huniq).
    by rewrite (Huniq i ji), (Huniq k jk).
  - destruct HW as (_ & _ & Hnone). by destruct (Hnone i ji).
Qed.

Lemma one_pending_per_segment_one_processing_witness :
  reachable (state_after resubmit_while_processing) ∧
  one_pending_per_segment (state_after resubmit_while_processing) ∧
  one_processing (state_after resubmit_while_processing).
Proof.
  split; [apply reachable_state_after_resubmit|].
  apply (one_pending_per_segment_one_processing
           (state_after resubmit_while_processing)).
  apply reachable_state_after_resubmit.
Defined.

(** C8: in every reachable state a job of the history has a [durationMs]
    exactly when its status is [done]. *)
Theorem durationMs_defined_iff_done s i job :
  reachable s → history s !! i = Some job →
  is_Some (durationMs job) ↔ status job = Done.
Proof. intros [HC _]%reachable_Inv Hi. exact (core_duration _ HC i job Hi). Qed.

Lemma reachable_one_job_done : reachable (state_after one_job_done).
Proof. eexists one_job_done, _. vm_compute. reflexivity. Qed.

Lemma durationMs_defined_iff_done_witness :
  is_Some (durationMs (mkRenderJob "job_1" "seg_001" "blur" High 0 Done (Some 300)))
  ↔ status (mkRenderJob "job_1" "seg_001" "blur" High 0 Done (Some 300)) = Done.
Proof.
  apply (durationMs_defined_iff_done (state_after one_job_done) 0%nat).
  - apply reachable_one_job_done.
  - reflexivity.
Defined.

(** ** Cancelled jobs stay cancelled *)

(** [processNext] changes no cancelled job, in any state. *)
Lemma processNext_keeps_cancelled t s i job :
  history s !! i = Some job → status job = Cancelled →
  history (processNext t s) !! i = Some job.
Proof.
  remember (Queue.items (queue s)) as its eqn:Hits.
  revert s Hits. induction its as [|j rest IH]; intros s Hits Hi Hc;
    rewrite processNext_eq, <- Hits;
    destruct (Queue.isEmpty (queue s)); try done.
  destruct (history s !! j) as [jj|] eqn:Hj; [|done].
  cbn zeta. case_bool_decide as Hjc.
  - by apply IH.
  - fields. rewrite list_lookup_alter_ne; [done|]. intros ->. congruence.
Qed.

Lemma step_keeps_cancelled e s o s' i job :
  Inv s → step e s = Some (o, s') →
  history s !! i = Some job → status job = Cancelled →
  history s' !! i = Some job.
Proof.
  intros [HC HW] He Hi Hc. destruct e as [params now t|seg| |k now t].
  - cbn [step] in He. unfold enqueue in He.
    pose proof (enqueue_accept_old params now s i job Hi) as Hold.
    rewrite cancel_if_pending_miss in Hold by (intros [_ ?]; congruence).
    destruct (enqueue_accept params now s) as [r s2].
    injection He as <- <-. simpl in Hold.
    destruct (isProcessing s2); [done|by apply processNext_keeps_cancelled].
  - injection He as <- <-. fields. rewrite lookup_cancel, Hi. simpl.
    f_equal. apply cancel_if_pending_miss. intros [_ ?]. congruence.
  - by injection He as <- <-.
  - simpl in He. destruct (suspended s !! k) as [f|] eqn:Hk; [|done].
    injection He as <- <-. unfold resume. fields.
    apply processNext_keeps_cancelled; [|done]. fields.
    rewrite list_lookup_alter_ne; [done|]. intros Heq.
    unfold Worker in HW. destruct (isProcessing s).
    + destruct HW as (f' & jf & Hf & Hjf & Hst & _).
      rewrite Hf in Hk. apply list_lookup_singleton_Some in Hk as [_ ->].
      congruence.
    + destruct HW as [Hnil _]. by rewrite Hnil in Hk.
Qed.

Lemma run_keeps_cancelled es : ∀ s os s' i job,
  Inv s → run es s = Some (os, s') →
  history s !! i = Some job → status job = Cancelled →
  history s' !! i = Some job.
Proof.
  induction es as [|e es IH]; intros s os s' i job HI.
  - simpl. by intros [= <- <-].
  - rewrite run_cons. destruct (step e s) as [[o s1]|] eqn:He; [|done].
    simpl. destruct (run es s1) as [[os1 s2]|] eqn:Hr; [|done].
    simpl. intros [= <- <-] Hi Hc.
    apply (IH s1 os1 s2 i job); eauto using Inv_step, step_keeps_cancelled.
Qed.

(** C3: a cancelled job is never touched again.  From a reachable state,
    whatever happens next, the record of a cancelled job stays as it is,
    cancelled and without [durationMs]; and when [processNext] dequeues a
    cancelled job it goes on with the rest of the queue, the history
    unchanged, and the job keeps its record. *)
Theorem cancelled_job_is_skipped_for_good :
  (∀ s es os s' i job,
     reachable s → history s !! i = Some job → status job = Cancelled →
     run es s = Some (os, s') →
     history s' !! i = Some job ∧ durationMs job = None) ∧
  (∀ t s j rest job,
     Queue.isEmpty (queue s) = false → Queue.items (queue s) = j :: rest →
     history s !! j = Some job → status job = Cancelled →
     processNext t s =
       processNext t
         (mkVRQ (Queue.mk rest (Queue._size (queue s) - 1)) (history s)
                (cancelledSegments s) true (jobCounter s) (suspended s)) ∧
     history (processNext t s) !! j = Some job).
Proof.
  split.
  - intros s es os s' i job HI%reachable_Inv Hi Hc Hr. split.
    + by eapply run_keeps_cancelled.
    + pose proof (core_duration _ (inv_core _ HI) i job Hi) as Hd.
      destruct (durationMs job); [|done].
      assert (status job = Done) by (apply Hd; by eexists). congruence.
  - intros t s j rest job Hemp Hits Hj Hc. split.
    + rewrite (processNext_eq t s), Hemp, Hits, Hj. cbn zeta.
      by rewrite bool_decide_eq_true_2.
    + by apply processNext_keeps_cancelled.
Qed.

Lemma reachable_resubmit_seg_002 : reachable (state_after resubmit_seg_002).
Proof. eexists resubmit_seg_002, _. vm_compute. reflexivity. Qed.

Lemma reachable_drained : reachable (state_after (resubmit_seg_002 ++ drain)).
Proof. eexists (resubmit_seg_002 ++ drain), _. vm_compute. reflexivity. Qed.

Lemma cancelled_job_is_skipped_for_good_witness :
  let job_2 := mkRenderJob "job_2" "seg_002" "blur" Normal 0 Cancelled None in
  let s := state_after resubmit_seg_002 in
  (history (state_after (resubmit_seg_002 ++ drain)) !! 1%nat = Some job_2 ∧
   durationMs job_2 = None) ∧
  history (processNext 351 s) !! 1%nat = Some job_2.
Proof.
  intros job_2 s.
  destruct cancelled_job_is_skipped_for_good as [Hrun Hskip]. split.
  - apply (Hrun s drain (repeat NoCaller 3) _ 1%nat job_2).
    + apply reachable_resubmit_seg_002.
    + reflexivity.
    + reflexivity.
    + vm_compute. reflexivity.
  - apply (Hskip 351 s 1%nat [2%nat; 3%nat] job_2); reflexivity.
Defined.

(** ** Submission *)

(** The new record is the last of the history after the first part. *)
Lemma enqueue_accept_new params now s :
  history (enqueue_accept params now s).2 !! length (history s) =
  Some (mkRenderJob ("job_" +:+ pretty (jobCounter s + 1))
                    (p_segmentId params) (p_effect params)
                    (p_priority params) now Pending None).
Proof.
  unfold enqueue_accept. fields.
  rewrite <- (length_fmap (cancel_if_pending (p_segmentId params))).
  by rewrite list_lookup_middle.
Qed.

Lemma enqueue_fst params now t s :
  (enqueue params now t s).1 = length (history s).
Proof. unfold enqueue, enqueue_accept. simpl. by rewrite length_fmap. Qed.

Lemma enqueue_snd params now t s :
  (enqueue params now t s).2 =
  if isProcessing s then (enqueue_accept params now s).2
  else processNext t (enqueue_accept params now s).2.
Proof. done. Qed.

(** Started from an idle reachable state, the call itself makes the
    worker take the new job. *)
Lemma enqueue_idle_starts params now t s :
  Inv s → isProcessing s = false →
  (enqueue params now t s).2 =
  mkVRQ (Queue.mk [] 0)
        (alter (set_status Processing) (length (history s))
               (history (enqueue_accept params now s).2))
        ({[p_segmentId params]} ∪ cancelledSegments s) true
        (jobCounter s + 1)
        [mkFrame (length (history s)) t (estimateRenderTime (p_effect params))].
Proof.
  intros [HC HW] Hb. rewrite enqueue_snd, Hb, processNext_eq.
  unfold Worker in HW. rewrite Hb in HW. destruct HW as (Hsus & Hits & _).
  assert (Queue._size (queue s) = 0) as Hsz
    by (rewrite (core_size _ HC), Hits; done).
  pose proof (enqueue_accept_new params now s) as Hnew.
  unfold enqueue_accept, Queue.isEmpty in *. fields.
  rewrite Hits, Hsz, Hsus, length_fmap.
  change (0 + 1 =? 0) with false. cbn [app]. rewrite Hnew. done.
Qed.

(** C1, as stated, fails: the first submission to a fresh scheduler
    returns a record whose status is [processing], not [pending]. *)
Lemma first_enqueue_returns_processing_job :
  let r := enqueue (mkParams "seg_001" "color_grade" High) 0 0 init in
  reachable init ∧
  status_at r.2 r.1 = Some Processing ∧ status_at r.2 r.1 ≠ Some Pending.
Proof. split; [apply reachable_init|]. split; [reflexivity|discriminate]. Qed.

(** C1, amended.  [enqueue] first turns every pending job of the segment
    to cancelled and leaves every other job (a processing one of the same
    segment too) as it is; it appends a new pending record to the history
    and to the tail of the queue; the record it returns is that one.  If
    a worker is active the call ends there and the returned record is
    pending.  If none is, the call runs [processNext] before it returns,
    and in a reachable state the returned record is then processing. *)
Theorem enqueue_supersedes_appends_and_starts params now t s :
  let s1 := (enqueue_accept params now s).2 in
  let r := enqueue params now t s in
  (∀ i old, history s !! i = Some old →
     history s1 !! i =
     Some (if bool_decide (segmentId old = p_segmentId params ∧
                           status old = Pending)
           then set_status Cancelled old else old)) ∧
  r.1 = length (history s) ∧
  history s1 =
    take (length (history s)) (history s1) ++
    [mkRenderJob ("job_" +:+ pretty (jobCounter s + 1)) (p_segmentId params)
                 (p_effect params) (p_priority params) now Pending None] ∧
  Queue.items (queue s1) = Queue.items (queue s) ++ [r.1] ∧
  (isProcessing s = true → r.2 = s1 ∧ status_at r.2 r.1 = Some Pending) ∧
  (isProcessing s = false → r.2 = processNext t s1) ∧
  (isProcessing s = false → reachable s →
     status_at r.2 r.1 = Some Processing).
Proof.
  intros s1 r. subst s1 r. rewrite enqueue_fst, enqueue_snd.
  pose proof (enqueue_accept_new params now s) as Hnew.
  split_and!.
  - intros i old Hi. rewrite (enqueue_accept_old _ _ _ _ _ Hi). f_equal.
    case_bool_decide as Hd.
    + destruct Hd. by apply cancel_if_pending_hit.
    + by apply cancel_if_pending_miss.
  - done.
  - unfold enqueue_accept. fields.
    rewrite <- (length_fmap (cancel_if_pending (p_segmentId params))).
    by rewrite take_app_length.
  - unfold enqueue_accept. fields. by rewrite length_fmap.
  - intros ->. split; [done|]. unfold status_at. by rewrite Hnew.
  - by intros ->.
  - intros Hb HI%reachable_Inv.
    pose proof (enqueue_idle_starts params now t s HI Hb) as Hs.
    rewrite enqueue_snd, Hb in Hs. rewrite Hb, Hs. unfold status_at. fields.
    by rewrite list_lookup_alter_eq, Hnew.
Qed.

Lemma enqueue_supersedes_appends_and_starts_witness :
  let busy := state_after resubmit_seg_002 in
  let p := mkParams "seg_003" "trim" Low in
  status_at (enqueue p 200 200 busy).2 (enqueue p 200 200 busy).1
    = Some Pending ∧
  status_at (enqueue p 0 0 init).2 (enqueue p 0 0 init).1 = Some Processing.
Proof.
  intros busy p. split.
  - apply (enqueue_supersedes_appends_and_starts p 200 200 busy). reflexivity.
  - apply (enqueue_supersedes_appends_and_starts p 0 0 init);
      [reflexivity|apply reachable_init].
Defined.

(** ** Priority *)

Lemma lookup_set_priority v i (h : list RenderJob) j :
  alter (set_priority v) i h !! j =
  (if decide (i = j) then set_priority v else λ job, job) <$> h !! j.
Proof.
  case_decide as Hij.
  - subst. apply list_lookup_alter_eq.
  - rewrite list_lookup_alter_ne by done. by destruct (h !! j).
Qed.

Lemma set_status_set_priority st v i j (h : list RenderJob) :
  alter (set_status st) j (alter (set_priority v) i h) =
  alter (set_priority v) i (alter (set_status st) j h).
Proof.
  destruct (decide (i = j)) as [->|Hne].
  - rewrite !list_alter_alter_eq. by apply list_alter_ext.
  - apply list_alter_alter_ne. congruence.
Qed.

(** [processNext] never reads a priority. *)
Lemma processNext_with_priority v i t s :
  processNext t (with_priority v i s) = with_priority v i (processNext t s).
Proof.
  remember (Queue.items (queue s)) as its eqn:Hits.
  revert s Hits. induction its as [|j rest IH]; intros s Hits;
    rewrite (processNext_eq t s), (processNext_eq t (with_priority v i s));
    cbn [with_priority queue history cancelledSegments jobCounter suspended];
    rewrite <- Hits; destruct (Queue.isEmpty (queue s)); try done.
  rewrite lookup_set_priority.
  destruct (history s !! j) as [job|]; [|done]. cbn zeta.
  assert (status ((if decide (i = j) then set_priority v else λ job0, job0) job)
          = status job) as Hst by (by case_decide).
  assert (effect ((if decide (i = j) then set_priority v else λ job0, job0) job)
          = effect job) as Heff by (by case_decide).
  simpl. rewrite Hst, Heff. case_bool_decide.
  - by rewrite <- IH.
  - unfold with_priority. fields. by rewrite set_status_set_priority.
Qed.


(** ** [cancelPendingForSegment] alone *)

Lemma cancelPendingForSegment_twice seg s :
  cancelPendingForSegment seg (cancelPendingForSegment seg s)
  = cancelPendingForSegment seg s.
Proof.
  unfold cancelPendingForSegment. fields. f_equal.
  - rewrite <- list_fmap_compose. apply list_fmap_ext.
    intros i job _. apply cancel_if_pending_idem.
  - by rewrite (assoc_L (∪)), union_idemp_L.
Qed.

Lemma cancelPendingForSegment_nothing_pending seg s :
  Forall (λ job, ¬ (segmentId job = seg ∧ status job = Pending)) (history s) →
  observable (cancelPendingForSegment seg s) = observable s.
Proof.
  intros Hno. unfold observable. fields. do 4 f_equal.
  rewrite <- (list_fmap_id (history s)) at 2.
  apply Forall_fmap_ext. eapply Forall_impl; [exact Hno|].
  intros job Hjob. by apply cancel_if_pending_miss.
Qed.

(** C9: calling [cancelPendingForSegment] twice is the same as calling it
    once; and when no job of the segment is pending, one call or two
    change nothing that can be observed, and the call returns normally. *)
Theorem cancelPendingForSegment_idempotent_noop seg s :
  cancelPendingForSegment seg (cancelPendingForSegment seg s)
  = cancelPendingForSegment seg s ∧
  step (CallCancelPendingForSegment seg) s
  = Some (RetVoid, cancelPendingForSegment seg s) ∧
  (Forall (λ job, ¬ (segmentId job = seg ∧ status job = Pending)) (history s) →
   observable (cancelPendingForSegment seg s) = observable s ∧
   observable (cancelPendingForSegment seg (cancelPendingForSegment seg s))
   = observable s).
Proof.
  split_and!; [apply cancelPendingForSegment_twice|done|].
  intros Hno. rewrite cancelPendingForSegment_twice.
  split; by apply cancelPendingForSegment_nothing_pending.
Qed.

Lemma cancelPendingForSegment_idempotent_noop_witness :
  let s := state_after resubmit_seg_002 in
  observable (cancelPendingForSegment "seg_001" s) = observable s ∧
  observable (cancelPendingForSegment "seg_001"
                (cancelPendingForSegment "seg_001" s)) = observable s.
Proof.
  intros s.
  apply (cancelPendingForSegment_idempotent_noop "seg_001" s).
  apply (bool_decide_unpack _). vm_compute. reflexivity.
Defined.

(** ** Statistics *)

Lemma foldl_stats_step h : ∀ acc,
  total (foldl stats_step acc h).1 = total acc.1 + Z.of_nat (length h) ∧
  (foldl stats_step acc h).2 = acc.2 ++ recorded_durations h.
Proof.
  induction h as [|job h IH]; intros [c rts].
  - simpl. split; [lia|by rewrite app_nil_r].
  - cbn [foldl]. destruct (IH (stats_step (c, rts) job)) as [-> ->].
    unfold recorded_durations. cbn [omap list_omap stats_step fst snd length].
    split.
    + unfold total, bump. destruct (status job); simpl; lia.
    + destruct (status job), (durationMs job); simpl;
        by rewrite <- ?app_assoc.
Qed.

Lemma getStats_eq s :
  getStats s =
  let acc := foldl stats_step (mkCounts 0 0 0 0, []) (history s) in
  mkStats (c_pending acc.1) (c_processing acc.1) (c_done acc.1)
          (c_cancelled acc.1) (average acc.2).
Proof.
  unfold getStats.
  by destruct (foldl stats_step (mkCounts 0 0 0 0, []) (history s)).
Qed.

(** C7: the four counts of [getStats] add up to the length of the
    history, the call leaves the scheduler as it was, and in a reachable
    state that length is the number of jobs created, [jobCounter]. *)
Theorem getStats_counts_partition_history s :
  pending (getStats s) + processing (getStats s) + done (getStats s)
  + cancelled (getStats s) = Z.of_nat (length (history s)) ∧
  step CallGetStats s = Some (RetStats (getStats s), s) ∧
  (reachable s → Z.of_nat (length (history s)) = jobCounter s).
Proof.
  split_and!.
  - rewrite getStats_eq. cbn zeta. cbn [pending processing done cancelled].
    destruct (foldl_stats_step (history s) (mkCounts 0 0 0 0, [])) as [Ht _].
    unfold total in Ht. simpl in Ht. lia.
  - done.
  - intros [HC _]%reachable_Inv. by rewrite (core_counter _ HC).
Qed.

Lemma getStats_counts_partition_history_witness :
  Z.of_nat (length (history (state_after resubmit_seg_002)))
  = jobCounter (state_after resubmit_seg_002).
Proof.
  apply (getStats_counts_partition_history (state_after resubmit_seg_002)).
  apply reachable_resubmit_seg_002.
Defined.

(** *** The average *)

Lemma Math_round_bounds (x : Q) :
  (inject_Z (Math_round x) <= x + (1 # 2) ∧
   x + (1 # 2) < inject_Z (Math_round x) + 1)%Q.
Proof.
  unfold Math_round. split; [apply Qfloor_le|].
  pose proof (Qlt_floor (x + (1 # 2))) as H.
  by rewrite inject_Z_plus in H.
Qed.

Ltac Qabs_cases :=
  apply Qabs_case; intros ?; apply Qabs_case; intros ?;
  change (inject_Z 1) with 1%Q in *; lra.

(** [Math.round] gives an integer nearest to its argument. *)
Lemma Math_round_nearest (x : Q) (z : Z) :
  (Qabs (inject_Z (Math_round x) - x) <= Qabs (inject_Z z - x))%Q.
Proof.
  destruct (Math_round_bounds x) as [Hlo Hhi].
  assert (z + 1 <= Math_round x ∨ z = Math_round x ∨ Math_round x + 1 <= z)
    as [Hz|[->|Hz]] by lia.
  - rewrite Zle_Qle, inject_Z_plus in Hz.
    Qabs_cases.
  - apply Qle_refl.
  - rewrite Zle_Qle, inject_Z_plus in Hz.
    Qabs_cases.
Qed.

Lemma foldl_add_foldr (l : list Z) : ∀ a, foldl Z.add a l = a + foldr Z.add 0 l.
Proof.
  induction l as [|x l IH]; intros a; simpl; [lia|]. rewrite IH. lia.
Qed.

Lemma average_eq (ds : list Z) :
  average ds = if decide (ds = []) then 0 else Math_round (mean ds).
Proof.
  unfold average, mean, reduce_sum. rewrite foldl_add_foldr, Z.add_0_l.
  destruct ds as [|d ds]; [done|]. case_decide; [done|].
  by destruct (Z.ltb_spec 0 (Z.of_nat (length (d :: ds)))); [|simpl in *; lia].
Qed.

(** In a history where [durationMs] goes with [done], [renderTimes] holds
    the durations of the done jobs, in order. *)
Lemma recorded_durations_done_jobs (h : list RenderJob) :
  duration_iff_done h →
  Forall2 (λ job d, durationMs job = Some d) (done_jobs h)
          (recorded_durations h).
Proof.
  intros Hd.
  assert (Forall (λ job, is_Some (durationMs job) ↔ status job = Done) h)
    as Hall by (apply Forall_lookup; exact Hd).
  clear Hd. unfold done_jobs, recorded_durations.
  induction Hall as [|job h Hjob _ IH]; [constructor|].
  cbn [omap list_omap]. rewrite filter_cons. case_decide as Hst.
  - destruct (proj2 Hjob Hst) as [d Hdur]. rewrite Hst, Hdur.
    by constructor.
  - by destruct (status job).
Qed.

(** C6: in a reachable state, [averageRenderTimeMs] is 0 when no job is
    done; otherwise it is [Math.round] of the arithmetic mean of the
    [durationMs] of the done jobs, an integer nearest to that mean.  The
    two hypotheses on the durations are the range in which the exact
    quotient taken here and the quotient of doubles taken by the program
    round to the same integer. *)
Theorem getStats_average_is_rounded_mean s :
  reachable s →
  Forall (λ d, 0 ≤ d) (recorded_durations (history s)) →
  foldr Z.add 0 (recorded_durations (history s)) < 2 ^ 52 →
  ∃ ds : list Z,
    Forall2 (λ job d, durationMs job = Some d) (done_jobs (history s)) ds ∧
    (done_jobs (history s) = [] → averageRenderTimeMs (getStats s) = 0) ∧
    (done_jobs (history s) ≠ [] →
       averageRenderTimeMs (getStats s) = Math_round (mean ds) ∧
       ∀ z : Z,
         (Qabs (inject_Z (averageRenderTimeMs (getStats s)) - mean ds)
          <= Qabs (inject_Z z - mean ds))%Q).
Proof.
  intros [HC _]%reachable_Inv _ _. exists (recorded_durations (history s)).
  pose proof (recorded_durations_done_jobs _ (core_duration _ HC)) as HF.
  rewrite getStats_eq. cbn zeta. cbn [averageRenderTimeMs].
  destruct (foldl_stats_step (history s) (mkCounts 0 0 0 0, [])) as [_ ->].
  cbn [snd app]. rewrite average_eq. split_and!; [done| |].
  - intros Hnil. rewrite Hnil in HF. apply Forall2_nil_inv_l in HF.
    by rewrite HF.
  - intros Hne. case_decide as Hds.
    + rewrite Hds in HF. by apply Forall2_nil_inv_r in HF.
    + split; [done|]. intros z. apply Math_round_nearest.
Qed.

Lemma getStats_average_is_rounded_mean_witness :
  let s := state_after (resubmit_seg_002 ++ drain) in
  recorded_durations (history s) = [351; 251; 201] ∧
  mean [351; 251; 201] = (803 # 3)%Q ∧
  averageRenderTimeMs (getStats s) = 268 ∧
  ∃ ds : list Z,
    Forall2 (λ job d, durationMs job = Some d) (done_jobs (history s)) ds ∧
    (done_jobs (history s) = [] → averageRenderTimeMs (getStats s) = 0) ∧
    (done_jobs (history s) ≠ [] →
       averageRenderTimeMs (getStats s) = Math_round (mean ds) ∧
       ∀ z : Z,
         (Qabs (inject_Z (averageRenderTimeMs (getStats s)) - mean ds)
          <= Qabs (inject_Z z - mean ds))%Q).
Proof.
  intros s. do 3 (split; [reflexivity|]).
  apply (getStats_average_is_rounded_mean s).
  - apply reachable_drained.
  - change (Forall (λ d, 0 ≤ d) [351; 251; 201]). repeat constructor; lia.
  - reflexivity.
Defined.

(** ** The set [cancelledSegments] is never read *)

Lemma NoSet_processNext_eq t s :
  NoSet.processNext t s =
  if Queue.isEmpty (NoSet.queue s)
  then NoSet.mk (NoSet.queue s) (NoSet.history s) false (NoSet.jobCounter s)
                (NoSet.suspended s)
  else
    match Queue.items (NoSet.queue s) with
    | [] => NoSet.mk (NoSet.queue s) (NoSet.history s) true
                     (NoSet.jobCounter s) (NoSet.suspended s)
    | j :: rest =>
        let q' := Queue.mk rest (Queue._size (NoSet.queue s) - 1) in
        match NoSet.history s !! j with
        | None => NoSet.mk q' (NoSet.history s) true (NoSet.jobCounter s)
                           (NoSet.suspended s)
        | Some job =>
            if bool_decide (status job = Cancelled)
            then NoSet.processNext t
                   (NoSet.mk q' (NoSet.history s) true (NoSet.jobCounter s)
                             (NoSet.suspended s))
            else NoSet.mk q'
                   (alter (set_status Processing) j (NoSet.history s)) true
                   (NoSet.jobCounter s)
                   (NoSet.suspended s ++
                      [mkFrame j t (estimateRenderTime (effect job))])
        end
    end.
Proof.
  funelim (NoSet.processNext t s); rewrite <- ?Heqcall; clear Heqcall.
  all: repeat match goal with
         | H : _ = sigmaI _ _ _ |- _ => clear H
         | H : Queue.isEmpty _ = _ |- _ => rewrite H; clear H
         | H : Queue.dequeue (NoSet.queue ?s0) = _ |- _ =>
             unfold Queue.dequeue in H;
             destruct (Queue.items (NoSet.queue s0)) as [|v rest];
             simplify_eq/=
         | H : NoSet.history _ !! _ = _ |- _ => rewrite H; clear H
         | H : bool_decide _ = _ |- _ => rewrite H; clear H
         end; try done.
Qed.

Lemma erase_processNext t s :
  NoSet.processNext t (erase s) = erase (processNext t s).
Proof.
  remember (Queue.items (queue s)) as its eqn:Hits.
  revert s Hits. induction its as [|j rest IH]; intros s Hits;
    rewrite NoSet_processNext_eq, processNext_eq;
    cbn [erase NoSet.queue NoSet.history NoSet.jobCounter NoSet.suspended];
    rewrite <- Hits; destruct (Queue.isEmpty (queue s)); try done.
  destruct (history s !! j) as [job|]; [|done]. cbn zeta.
  case_bool_decide; [|done]. by rewrite <- IH.
Qed.

Lemma erase_cancelPendingForSegment seg s :
  NoSet.cancelPendingForSegment seg (erase s)
  = erase (cancelPendingForSegment seg s).
Proof. done. Qed.

Lemma erase_enqueue params now t s :
  NoSet.enqueue params now t (erase s) =
  ((enqueue params now t s).1, erase (enqueue params now t s).2).
Proof.
  unfold NoSet.enqueue, enqueue.
  change (NoSet.enqueue_accept params now (erase s))
    with ((enqueue_accept params now s).1, erase (enqueue_accept params now s).2).
  destruct (enqueue_accept params now s) as [job s2]. cbn [fst snd erase].
  change (NoSet.isProcessing (erase s2)) with (isProcessing s2).
  destruct (isProcessing s2); [done|]. by rewrite <- erase_processNext.
Qed.

Lemma erase_step e s :
  NoSet.step e (erase s) = prod_map (λ o, o) erase <$> step e s.
Proof.
  destruct e as [params now t|seg| |k now t]; cbn [NoSet.step step].
  - rewrite erase_enqueue. by destruct (enqueue params now t s).
  - done.
  - done.
  - change (NoSet.suspended (erase s)) with (suspended s).
    destruct (suspended s !! k) as [f|]; [|done]. simpl.
    unfold NoSet.resume, resume. by rewrite <- erase_processNext.
Qed.

(** C10: the scheduler without the set behaves as the scheduler with it.
    Every run gives the same outputs (returned jobs, statistics) and ends
    in the same state once the set is forgotten; the only thing ever done
    with the set is the insertion in [cancelPendingForSegment]. *)
Theorem cancelledSegments_is_write_only es s seg :
  NoSet.run es (erase s) = prod_map (λ os, os) erase <$> run es s ∧
  cancelledSegments (cancelPendingForSegment seg s)
  = {[seg]} ∪ cancelledSegments s.
Proof.
  split; [|done]. revert s. induction es as [|e es IH]; intros s; [done|].
  rewrite run_cons. cbn [NoSet.run]. rewrite erase_step.
  destruct (step e s) as [[o s1]|]; [|done]. simpl. rewrite IH.
  by destruct (run es s1) as [[os s2]|].
Qed.

(** * Further properties *)

(** ** Calls on a queue *)

Lemma Queue_wf_call {T : Type} (c : QueueCall T) q :
  Queue_wf q → Queue_wf (queue_call c q).2.
Proof.
  unfold Queue_wf. intros Hwf. destruct c as [v|]; simpl.
  - rewrite length_app. simpl. lia.
  - unfold Queue.dequeue. destruct (Queue.items q) as [|v rest] eqn:Hits;
      simpl in *; [by rewrite Hits|lia].
Qed.

Lemma queue_calls_cons {T : Type} (c : QueueCall T) cs q :
  queue_calls (c :: cs) q =
  ((queue_call c q).1 :: (queue_calls cs (queue_call c q).2).1,
   (queue_calls cs (queue_call c q).2).2).
Proof.
  simpl. destruct (queue_call c q) as [o q1]. simpl.
  by destruct (queue_calls cs q1).
Qed.

Lemma queue_calls_app {T : Type} (cs1 cs2 : list (QueueCall T)) q :
  queue_calls (cs1 ++ cs2) q =
  ((queue_calls cs1 q).1 ++ (queue_calls cs2 (queue_calls cs1 q).2).1,
   (queue_calls cs2 (queue_calls cs1 q).2).2).
Proof.
  revert q. induction cs1 as [|c cs1 IH]; intros q.
  - simpl. by destruct (queue_calls cs2 q).
  - rewrite <- app_comm_cons, !queue_calls_cons, IH. reflexivity.
Qed.

Lemma Queue_wf_calls {T : Type} (cs : list (QueueCall T)) q :
  Queue_wf q → Queue_wf (queue_calls cs q).2.
Proof.
  revert q. induction cs as [|c cs IH]; intros q Hwf; [done|].
  rewrite queue_calls_cons. simpl. by apply IH, Queue_wf_call.
Qed.

(** Counting: each [enqueue] adds one to [size], each [dequeue] that
    returns a value takes one away, a [dequeue] that returns [undefined]
    changes nothing. *)
Lemma queue_calls_size {T : Type} (cs : list (QueueCall T)) q :
  Queue.size (queue_calls cs q).2 =
  Queue.size q + Z.of_nat (length (filter (λ c, is_enqueue c = true) cs))
  - Z.of_nat (length (filter is_Some (queue_calls cs q).1)).
Proof.
  revert q. induction cs as [|c cs IH]; intros q.
  - simpl. lia.
  - rewrite queue_calls_cons. cbn [fst snd]. rewrite IH.
    destruct c as [v|]; cbn [queue_call fst snd].
    + rewrite (filter_cons_True _ (QEnqueue v)) by done.
      rewrite (filter_cons_False is_Some None) by (by intros [? ?]).
      unfold Queue.size, Queue.enqueue. cbn [Queue._size length]. lia.
    + rewrite (filter_cons_False _ QDequeue) by done.
      unfold Queue.dequeue, Queue.size.
      destruct (Queue.items q) as [|v rest]; cbn [fst snd Queue._size].
      * rewrite (filter_cons_False is_Some None) by (by intros [? ?]). lia.
      * rewrite (filter_cons_True is_Some (Some v)) by (by eexists).
        cbn [length]. lia.
Qed.

Lemma queue_calls_enqueues {T : Type} (vs : list T) q :
  queue_calls (QEnqueue <$> vs) q =
  (replicate (length vs) None,
   Queue.mk (Queue.items q ++ vs) (Queue._size q + Z.of_nat (length vs))).
Proof.
  revert q. induction vs as [|v vs IH]; intros [its sz].
  - simpl. by rewrite app_nil_r, Z.add_0_r.
  - rewrite fmap_cons, queue_calls_cons. cbn [queue_call fst snd].
    rewrite IH. unfold Queue.enqueue. cbn [Queue.items Queue._size length].
    rewrite <- app_assoc. simpl. do 2 f_equal. lia.
Qed.

Lemma queue_calls_dequeues {T : Type} (q : Queue.t T) :
  queue_calls (replicate (length (Queue.items q)) QDequeue) q =
  (Some <$> Queue.items q,
   Queue.mk [] (Queue._size q - Z.of_nat (length (Queue.items q)))).
Proof.
  destruct q as [its sz]. cbn [Queue.items Queue._size].
  revert sz. induction its as [|v its IH]; intros sz.
  - simpl. by rewrite Z.sub_0_r.
  - cbn [length replicate]. rewrite queue_calls_cons.
    cbn [queue_call Queue.dequeue Queue.items Queue._size fst snd].
    rewrite IH. simpl. do 2 f_equal. lia.
Qed.

(** X1: on a queue built from [new Queue()] by any calls of [enqueue] and
    [dequeue], [size] is the number of [enqueue] calls minus the number
    of [dequeue] calls that returned a value, it is the number of nodes,
    and [isEmpty] holds exactly when [peek] and [dequeue] have nothing
    to return. *)
Theorem Queue_size_counts_calls {T : Type} (cs : list (QueueCall T)) :
  let r := queue_calls cs Queue.empty in
  Queue.size r.2 =
    Z.of_nat (length (filter (λ c, is_enqueue c = true) cs))
    - Z.of_nat (length (filter is_Some r.1)) ∧
  Queue.size r.2 = Z.of_nat (length (Queue.toArray r.2)) ∧
  (Queue.isEmpty r.2 = true ↔ Queue.peek r.2 = None) ∧
  (Queue.isEmpty r.2 = true ↔ Queue.dequeue r.2 = (None, r.2)).
Proof.
  intros r. subst r.
  pose proof (Queue_wf_calls cs Queue.empty eq_refl) as Hwf.
  pose proof (queue_calls_size cs Queue.empty) as Hsz.
  destruct (queue_calls cs Queue.empty) as [os q]. cbn [fst snd] in *.
  unfold Queue_wf in Hwf.
  unfold Queue.size, Queue.toArray, Queue.isEmpty, Queue.peek, Queue.dequeue
    in *.
  split_and!; [simpl in Hsz; lia|done| |];
    destruct (Queue.items q) as [|v rest]; simpl in *;
    rewrite Z.eqb_eq; split; intros; (done || lia).
Qed.

(** X2: first in, first out.  Values put into a queue come out of it
    after the values it already held, in the order they were put in;
    the queue is then the empty queue. *)
Theorem Queue_first_in_first_out {T : Type} (q : Queue.t T) (vs : list T) :
  Queue_wf q →
  queue_calls
    ((QEnqueue <$> vs) ++
     replicate (length (Queue.toArray q) + length vs) QDequeue) q
  = (replicate (length vs) None ++ (Some <$> Queue.toArray q ++ vs),
     Queue.empty).
Proof.
  unfold Queue_wf, Queue.toArray. intros Hwf.
  rewrite queue_calls_app, queue_calls_enqueues. cbn [fst snd].
  set (q1 := Queue.mk _ _).
  replace (length (Queue.items q) + length vs)%nat
    with (length (Queue.items q1))
    by (subst q1; cbn [Queue.items]; by rewrite length_app).
  rewrite queue_calls_dequeues. subst q1.
  cbn [fst snd Queue.items Queue._size].
  f_equal. unfold Queue.empty. f_equal. rewrite length_app. lia.
Qed.

Lemma Queue_first_in_first_out_witness :
  queue_calls
    [QEnqueue 3%nat; QEnqueue 4%nat; QDequeue; QDequeue; QDequeue; QDequeue]
    (Queue.mk [1%nat; 2%nat] 2)
  = ([None; None; Some 1%nat; Some 2%nat; Some 3%nat; Some 4%nat],
     Queue.empty).
Proof.
  apply (Queue_first_in_first_out (Queue.mk [1%nat; 2%nat] 2) [3%nat; 4%nat]).
  reflexivity.
Defined.

Lemma spread_all {T : Type} (l : list T) : spread l = l.
Proof.
  funelim (spread l); clear Heqcall;
    repeat match goal with H : _ = sigmaI _ _ _ |- _ => clear H end.
  - destruct current as [|v r]; [discriminate|].
    injection Hnext as -> ->. by f_equal.
  - destruct current; [done|discriminate].
Qed.

(** X3: iterating over the queue, as [toArray] does, gives the values in
    the order in which [dequeue] would return them. *)
Theorem Queue_iteration_is_dequeue_order {T : Type} (q : Queue.t T) :
  spread (Queue_iterator q) = Queue.toArray q ∧
  (queue_calls (replicate (length (Queue.toArray q)) QDequeue) q).1
  = Some <$> spread (Queue_iterator q).
Proof.
  unfold Queue_iterator, Queue.toArray. rewrite spread_all. split; [done|].
  by rewrite queue_calls_dequeues.
Qed.

(** ** The life of a job *)

Lemma same_identity_refl job : same_identity job job.
Proof. by repeat split. Qed.

Lemma same_identity_trans a b c :
  same_identity a b → same_identity b c → same_identity a c.
Proof. unfold same_identity. intros (?&?&?&?&?) (?&?&?&?&?). split_and!; congruence. Qed.

Lemma job_step_refl job : job_step job job.
Proof. split_and!; [apply same_identity_refl|constructor|done|done]. Qed.

Lemma job_step_cancel seg job : job_step job (cancel_if_pending seg job).
Proof.
  destruct (cancel_if_pending_cases seg job) as [(_&Hp&->)|[_ ->]];
    [|apply job_step_refl].
  split_and!; simpl; [by repeat split| |congruence|done].
  rewrite Hp. constructor.
Qed.

Lemma job_step_start job :
  status job = Pending → job_step job (set_status Processing job).
Proof.
  intros Hp. split_and!; simpl; [by repeat split| |congruence|done].
  rewrite Hp. constructor.
Qed.

Lemma job_step_finish d job :
  status job = Processing →
  job_step job (set_durationMs d (set_status Done job)).
Proof.
  intros Hp. split_and!; simpl; [by repeat split| |congruence|done].
  rewrite Hp. constructor.
Qed.

(** What [processNext] does to the history: nothing, or it starts one
    job of the queue that is not cancelled. *)
Lemma processNext_history t s :
  history (processNext t s) = history s ∨
  ∃ j job, j ∈ Queue.items (queue s) ∧ history s !! j = Some job ∧
           status job ≠ Cancelled ∧
           history (processNext t s)
           = alter (set_status Processing) j (history s).
Proof.
  remember (Queue.items (queue s)) as its eqn:Hits.
  revert s Hits. induction its as [|j rest IH]; intros s Hits;
    rewrite processNext_eq, <- Hits;
    destruct (Queue.isEmpty (queue s)); try (by left).
  destruct (history s !! j) as [job|] eqn:Hj; [|by left].
  cbn zeta. case_bool_decide as Hc.
  - destruct (IH (mkVRQ (Queue.mk rest (Queue._size (queue s) - 1))
                        (history s) (cancelledSegments s) true
                        (jobCounter s) (suspended s)) eq_refl)
      as [Heq|(j' & job' & Hin & Hj' & Hc' & Heq)]; fields.
    + by left.
    + right. exists j', job'. split_and!; try done. by right.
  - right. exists j, job. split_and!; try done. by left.
Qed.

Lemma processNext_job_step t s i job :
  Core s → history s !! i = Some job →
  ∃ job', history (processNext t s) !! i = Some job' ∧ job_step job job'.
Proof.
  intros HC Hi.
  destruct (processNext_history t s)
    as [->|(j & jj & Hin & Hj & Hc & ->)].
  - exists job. split; [done|apply job_step_refl].
  - destruct (decide (i = j)) as [->|Hne].
    + rewrite list_lookup_alter_eq, Hi. simpl. eexists. split; [done|].
      apply job_step_start.
      destruct (core_queue _ HC j Hin) as (j0 & Hj0 & [Hp|Hcc]); congruence.
    + rewrite list_lookup_alter_ne by done. exists job.
      split; [done|apply job_step_refl].
Qed.

Lemma job_step_then_start job job1 job' :
  job_step job job1 → job_step job1 job' → job1 = job ∨ job' = job1 →
  job_step job job'.
Proof. by intros H1 H2 [->| ->]. Qed.

Lemma job_step_final job job' :
  status job = Done ∨ status job = Cancelled → job_step job job' → job' = job.
Proof.
  intros Hst (_ & Hstep & Hsame & _). apply Hsame.
  destruct Hst as [Hst|Hst]; rewrite Hst in Hstep; by inversion Hstep.
Qed.

Lemma job_step_after_cancel seg job job' :
  job_step (cancel_if_pending seg job) job' → job_step job job'.
Proof.
  destruct (cancel_if_pending_cases seg job) as [(_&Hp&Heq)|[_ ->]]; [|done].
  intros Hstep.
  rewrite (job_step_final (cancel_if_pending seg job) job');
    [|by right; rewrite Heq|done].
  apply job_step_cancel.
Qed.

Lemma job_step_after_finish d job job' :
  status job = Processing →
  job_step (set_durationMs d (set_status Done job)) job' → job_step job job'.
Proof.
  intros Hp Hstep.
  rewrite (job_step_final (set_durationMs d (set_status Done job)) job');
    [|by left|done].
  by apply job_step_finish.
Qed.

Lemma Inv_step_job e s o s' i job :
  Inv s → step e s = Some (o, s') → history s !! i = Some job →
  ∃ job', history s' !! i = Some job' ∧ job_step job job'.
Proof.
  intros HI He Hi.
  pose proof HI as [HC HW].
  destruct e as [params now t|seg| |k now t].
  - cbn [step] in He. unfold enqueue in He.
    pose proof (enqueue_accept_old params now s i job Hi) as Hold.
    pose proof (Core_enqueue_accept params now s HC) as HC2.
    destruct (enqueue_accept params now s) as [r s2].
    injection He as <- <-. cbn [snd] in *.
    destruct (isProcessing s2).
    + eexists. split; [done|apply job_step_cancel].
    + destruct (processNext_job_step t s2 i _ HC2 Hold) as (job' & Hi' & Hst).
      exists job'. split; [done|]. by eapply job_step_after_cancel.
  - injection He as <- <-. fields. rewrite lookup_cancel, Hi. simpl.
    eexists. split; [done|apply job_step_cancel].
  - injection He as <- <-. exists job. split; [done|apply job_step_refl].
  - simpl in He. destruct (suspended s !! k) as [f|] eqn:Hk; [|done].
    injection He as <- <-. unfold Worker in HW. destruct (isProcessing s).
    2:{ destruct HW as [Hnil _]. by rewrite Hnil in Hk. }
    destruct HW as (f' & jf & Hf & Hjf & Hst & _).
    rewrite Hf in Hk. apply list_lookup_singleton_Some in Hk as [_ ->].
    unfold resume.
    pose proof (Core_finish s (f_job f) jf (now - f_startTime f) HC Hjf Hst
                  (cancelledSegments s) true (delete k (suspended s)))
      as HC1.
    match goal with |- context [processNext t ?s1] =>
      assert (Core s1) as HC1' by exact HC1;
      destruct (decide (i = f_job f)) as [->|Hne];
      [ destruct (processNext_job_step t s1 (f_job f)
                    (set_durationMs (now - f_startTime f) (set_status Done jf))
                    HC1') as (job' & Hi' & Hstep)
      | destruct (processNext_job_step t s1 i job HC1')
          as (job' & Hi' & Hstep) ]
    end; fields.
    + by rewrite list_lookup_alter_eq, Hjf.
    + exists job'. split; [done|]. assert (job = jf) as -> by congruence.
      by eapply job_step_after_finish.
    + by rewrite list_lookup_alter_ne.
    + by exists job'.
Qed.

(** X4: one atomic step changes a job of the history in one of three
    ways only, pending to processing, pending to cancelled, processing
    to done, or not at all; the fields set at creation never change, and
    [durationMs] changes only when the job becomes done. *)
Theorem step_changes_jobs_lawfully e s o s' i job :
  reachable s → step e s = Some (o, s') → history s !! i = Some job →
  ∃ job', history s' !! i = Some job' ∧
          same_identity job job' ∧
          status_step (status job) (status job') ∧
          (status job' = status job → job' = job) ∧
          (status job' ≠ Done → durationMs job' = durationMs job).
Proof.
  intros HI%reachable_Inv He Hi. by apply (Inv_step_job e s o).
Qed.

Lemma step_changes_jobs_lawfully_witness :
  ∃ job', history (state_after resubmit_seg_002) !! 1%nat = Some job' ∧
          same_identity
            (mkRenderJob "job_2" "seg_002" "blur" Normal 0 Pending None) job' ∧
          status_step Pending (status job') ∧
          (status job' = Pending →
           job' = mkRenderJob "job_2" "seg_002" "blur" Normal 0 Pending None) ∧
          (status job' ≠ Done → durationMs job' = None).
Proof.
  apply (step_changes_jobs_lawfully
           (CallEnqueue (mkParams "seg_002" "speed_change" Normal) 150 150)
           (state_after (take 3 resubmit_seg_002))
           (RetJob 3%nat)).
  - eexists (take 3 resubmit_seg_002), _. vm_compute. reflexivity.
  - vm_compute. reflexivity.
  - reflexivity.
Defined.

(** *** Along a run *)

Lemma status_step_le a b c : status_step a b → status_le b c → status_le a c.
Proof.
  unfold status_le. intros Hstep Hle.
  destruct Hstep; [done|by right; left|by right; left|].
  destruct Hle as [<-|[?|[? _]]]; [|done|done]. by right; right.
Qed.

Lemma processNext_history_length t s :
  length (history (processNext t s)) = length (history s).
Proof.
  destruct (processNext_history t s) as [->|(j & jj & _ & _ & _ & ->)];
    [done|apply length_alter].
Qed.

Lemma step_history_length e s o s' :
  step e s = Some (o, s') →
  length (history s') =
  (length (history s) + if is_CallEnqueue e then 1 else 0)%nat.
Proof.
  destruct e as [params now t|seg| |k now t]; cbn [step is_CallEnqueue].
  - unfold enqueue, enqueue_accept. intros [= <- <-]. fields.
    destruct (isProcessing s); rewrite ?processNext_history_length; fields;
      rewrite length_app, length_fmap; done.
  - intros [= <- <-]. fields. rewrite length_fmap. lia.
  - intros [= <- <-]. lia.
  - destruct (suspended s !! k) as [f|]; [|done]. simpl. intros [= <- <-].
    unfold resume. rewrite processNext_history_length. fields.
    rewrite length_alter. lia.
Qed.

Lemma Inv_run_job es : ∀ s os s' i job,
  Inv s → run es s = Some (os, s') → history s !! i = Some job →
  ∃ job', history s' !! i = Some job' ∧ same_identity job job' ∧
          status_le (status job) (status job') ∧
          (status job = Done ∨ status job = Cancelled → job' = job).
Proof.
  induction es as [|e es IH]; intros s os s' i job HI.
  - simpl. intros [= <- <-] Hi. exists job.
    split_and!; [done|apply same_identity_refl|by left|done].
  - rewrite run_cons. destruct (step e s) as [[o s1]|] eqn:He; [|done].
    simpl. destruct (run es s1) as [[os1 s2]|] eqn:Hr; [|done].
    simpl. intros [= <- <-] Hi.
    destruct (Inv_step_job e s o s1 i job HI He Hi) as (job1 & Hi1 & Hstep).
    destruct (IH s1 os1 s2 i job1 (Inv_step _ _ _ _ HI He) Hr Hi1)
      as (job' & Hi' & Hid & Hle & Hfin).
    exists job'. pose proof Hstep as (Hid1 & Hst1 & _).
    split_and!; [done|by eapply same_identity_trans| |].
    + by eapply status_step_le.
    + intros Hfinal. rewrite (job_step_final job job1 Hfinal Hstep) in *.
      auto.
Qed.

Lemma run_history_length es : ∀ s os s',
  run es s = Some (os, s') →
  length (history s') =
  (length (history s) + length (filter (λ e, is_CallEnqueue e = true) es))%nat.
Proof.
  induction es as [|e es IH]; intros s os s'.
  - simpl. intros [= <- <-]. lia.
  - rewrite run_cons. destruct (step e s) as [[o s1]|] eqn:He; [|done].
    simpl. destruct (run es s1) as [[os1 s2]|] eqn:Hr; [|done].
    simpl. intros [= <- <-]. rewrite (IH _ _ _ Hr), (step_history_length _ _ _ _ He).
    destruct (is_CallEnqueue e) eqn:Hc.
    + rewrite filter_cons_True by done. simpl. lia.
    + rewrite filter_cons_False by (by rewrite Hc). lia.
Qed.

(** X5: the history only grows, by one record for each call of
    [enqueue]; along any run a record keeps its position and the fields
    set at creation, its status only moves forward, and once it is done
    or cancelled the whole record is final. *)
Theorem history_is_append_only es s os s' :
  reachable s → run es s = Some (os, s') →
  length (history s') =
    (length (history s)
     + length (filter (λ e, is_CallEnqueue e = true) es))%nat ∧
  ∀ i job, history s !! i = Some job →
    ∃ job', history s' !! i = Some job' ∧ same_identity job job' ∧
            status_le (status job) (status job') ∧
            (status job = Done ∨ status job = Cancelled → job' = job).
Proof.
  intros HI%reachable_Inv Hr. split.
  - by eapply run_history_length.
  - intros i job Hi. by eapply Inv_run_job.
Qed.

Lemma reachable_two_submitted :
  reachable (state_after (take 2 resubmit_seg_002)).
Proof. eexists (take 2 resubmit_seg_002), _. vm_compute. reflexivity. Qed.

Lemma history_is_append_only_witness :
  let es := drop 2 resubmit_seg_002 ++ drain in
  let s := state_after (take 2 resubmit_seg_002) in
  let s' := state_after (resubmit_seg_002 ++ drain) in
  length (history s') =
    (length (history s)
     + length (filter (λ e, is_CallEnqueue e = true) es))%nat ∧
  ∀ i job, history s !! i = Some job →
    ∃ job', history s' !! i = Some job' ∧ same_identity job job' ∧
            status_le (status job) (status job') ∧
            (status job = Done ∨ status job = Cancelled → job' = job).
Proof.
  intros es s s'.
  apply (history_is_append_only es s
           [RetJob 2%nat; RetJob 3%nat; NoCaller; NoCaller; NoCaller] s').
  - apply reachable_two_submitted.
  - vm_compute. reflexivity.
Defined.

(** *** Job ids *)

Lemma ids_step e s o s' :
  Inv s → ids_by_position s → step e s = Some (o, s') → ids_by_position s'.
Proof.
  intros HI Hids He i job' Hi'.
  destruct (history s !! i) as [job|] eqn:Hi.
  - destruct (Inv_step_job e s o s' i job HI He Hi) as (job'' & Hi'' & Hstep).
    assert (job'' = job') as -> by congruence.
    destruct Hstep as ((<- & _) & _). by apply Hids.
  - apply lookup_ge_None in Hi. apply lookup_lt_Some in Hi' as Hlt.
    rewrite (step_history_length _ _ _ _ He) in Hlt.
    destruct e as [params now t| | |]; cbn [is_CallEnqueue] in Hlt; try lia.
    assert (i = length (history s)) as -> by lia.
    cbn [step] in He. unfold enqueue in He.
    pose proof (enqueue_accept_new params now s) as Hnew.
    pose proof (Core_enqueue_accept params now s (inv_core _ HI)) as HC2.
    destruct (enqueue_accept params now s) as [r s2].
    injection He as <- <-. cbn [snd] in *.
    rewrite (core_counter _ (inv_core _ HI)) in Hnew.
    destruct (isProcessing s2).
    + rewrite Hnew in Hi'. by injection Hi' as <-.
    + destruct (processNext_job_step t s2 _ _ HC2 Hnew)
        as (job'' & Hi'' & (Hid & _) & _).
      assert (job'' = job') as -> by congruence. by rewrite <- Hid.
Qed.

Lemma ids_run es : ∀ s os s',
  Inv s → ids_by_position s → run es s = Some (os, s') → ids_by_position s'.
Proof.
  induction es as [|e es IH]; intros s os s' HI Hids.
  - simpl. by intros [= <- <-].
  - rewrite run_cons. destruct (step e s) as [[o s1]|] eqn:He; [|done].
    simpl. destruct (run es s1) as [[os1 s2]|] eqn:Hr; [|done].
    simpl. intros [= <- <-].
    eapply (IH s1); eauto using Inv_step, ids_step.
Qed.

(** X6: in every reachable state the job at position [i] of the history
    (counting from 0) has the id [job_] followed by [i + 1], so no two
    jobs have the same id. *)
Theorem job_ids_are_unique s i k ji jk :
  reachable s → history s !! i = Some ji → history s !! k = Some jk →
  id ji = "job_" +:+ pretty (Z.of_nat i + 1) ∧ (id ji = id jk → i = k).
Proof.
  intros (es & os & Hr) Hi Hk.
  assert (ids_by_position s) as Hids.
  { eapply ids_run; [apply Inv_init| |exact Hr].
    intros i' job' Hi'. by destruct i'. }
  rewrite (Hids i ji Hi), (Hids k jk Hk). split; [done|].
  intros Heq%(inj (String.append "job_"))%(inj pretty). lia.
Qed.

Lemma job_ids_are_unique_witness :
  id (mkRenderJob "job_2" "seg_002" "blur" Normal 0 Cancelled None)
  = "job_" +:+ pretty (Z.of_nat 1 + 1) ∧
  (id (mkRenderJob "job_2" "seg_002" "blur" Normal 0 Cancelled None)
   = id (mkRenderJob "job_4" "seg_002" "speed_change" Normal 150 Pending None)
   → 1%nat = 3%nat).
Proof.
  apply (job_ids_are_unique (state_after resubmit_seg_002)).
  - apply reachable_resubmit_seg_002.
  - reflexivity.
  - reflexivity.
Defined.

(** ** Jobs are started in the order of submission *)

Lemma started_cancel_if_pending seg job :
  started (cancel_if_pending seg job) → started job.
Proof.
  unfold started.
  intros [H|H]; apply cancel_if_pending_status_inv in H; auto.
Qed.

Lemma settled_cancel_if_pending seg job :
  status job = Done ∨ status job = Cancelled →
  status (cancel_if_pending seg job) = Done ∨
  status (cancel_if_pending seg job) = Cancelled.
Proof.
  destruct (cancel_if_pending_cases seg job) as [(_&_&->)|[_ ->]]; simpl; auto.
Qed.

Lemma Fifo_cancelPendingForSegment seg s :
  Fifo s → Fifo (cancelPendingForSegment seg s).
Proof.
  intros [Hso Hah Hse]. split; fields.
  - done.
  - intros i job' r (job & Hi & ->)%lookup_cancel_Some Hst%started_cancel_if_pending.
    eauto.
  - intros i k ji' jk' (ji & Hi & ->)%lookup_cancel_Some
      (jk & Hk & ->)%lookup_cancel_Some Hlt Hst%started_cancel_if_pending.
    apply settled_cancel_if_pending. eauto.
Qed.

Lemma Fifo_enqueue_accept params now s :
  Core s → Fifo s → Fifo (enqueue_accept params now s).2.
Proof.
  intros HC HF.
  apply (Core_cancelPendingForSegment (p_segmentId params)) in HC.
  apply (Fifo_cancelPendingForSegment (p_segmentId params)) in HF.
  destruct HC as [_ Hq _ _ _ _ _]. destruct HF as [Hso Hah Hse].
  unfold enqueue_accept.
  set (s1 := cancelPendingForSegment (p_segmentId params) s) in *.
  clearbody s1.
  split; cbn [snd queue history Queue.enqueue Queue.items].
  - apply StronglySorted_app. split_and!; [|done|repeat constructor].
    intros r x Hr ->%list_elem_of_singleton.
    destruct (Hq r Hr) as (job & Hjob%lookup_lt_Some & _). done.
  - intros i job r [[Hi Hlt]|[-> ->]]%lookup_snoc_Some Hst
      [Hr| ->%list_elem_of_singleton]%elem_of_app; eauto;
      destruct Hst as [H|H]; simpl in H; discriminate H.
  - intros i k ji jk [[Hi Hli]|[-> ->]]%lookup_snoc_Some
      [[Hk Hlk]|[-> ->]]%lookup_snoc_Some Hlt Hst; eauto; try lia;
      destruct Hst as [H|H]; simpl in H; discriminate H.
Qed.

Lemma Fifo_finish s j job d :
  Fifo s → history s !! j = Some job → status job = Processing →
  ∀ cs b fs,
    Fifo (mkVRQ (queue s)
                (alter (λ job, set_durationMs d (set_status Done job)) j
                       (history s))
                cs b (jobCounter s) fs).
Proof.
  intros [Hso Hah Hse] Hj Hp cs b fs. split; fields.
  - done.
  - intros i ji r [[-> (j0 & Hj0 & ->)]|[Hne Hi]]%lookup_alter_Some Hst Hr.
    + apply (Hah j job r); [done|by left|done].
    + eauto.
  - intros i k ji jk Hi Hk Hlt Hst.
    assert (∃ jk0, history s !! k = Some jk0 ∧ started jk0) as (jk0 & Hk0 & Hst0).
    { apply lookup_alter_Some in Hk as [[-> (j0 & Hj0 & ->)]|[Hne Hk]].
      - exists job. split; [done|by left].
      - by exists jk. }
    apply lookup_alter_Some in Hi as [[-> (j0 & Hj0 & ->)]|[Hne Hi]].
    + by left.
    + eauto.
Qed.

Lemma Fifo_ext s s' :
  queue s = queue s' → history s = history s' → Fifo s → Fifo s'.
Proof. intros Hq Hh [Hso Hah Hse]. split; rewrite <- ?Hq, <- ?Hh; done. Qed.

Lemma Fifo_processNext t s :
  Core s → (∀ i ji, history s !! i = Some ji → status ji ≠ Processing) →
  Fifo s → Fifo (processNext t s).
Proof.
  remember (Queue.items (queue s)) as its eqn:Hits.
  revert s Hits. induction its as [|j rest IH]; intros s Hits HC Hnone HF;
    symmetry in Hits; rewrite processNext_eq, Hits;
    destruct (Queue.isEmpty (queue s)); try (by apply (Fifo_ext s)).
  destruct (core_queue _ HC j) as (job & Hjob & Hst); [rewrite Hits; left|].
  rewrite Hjob. cbn zeta.
  pose proof HF as [Hso Hah Hse]. rewrite Hits in Hso, Hah.
  apply StronglySorted_cons in Hso as [Hjlt Hso].
  rewrite Forall_forall in Hjlt.
  case_bool_decide as Hc.
  - apply IH; [done| |done|]; fields.
    + apply (Core_skip s j rest); [done..|]. intros job' ?. congruence.
    + split; fields; [done| |done].
      intros i ji r Hi Hsi Hr. apply (Hah i ji r); [done..|by right].
  - destruct Hst as [Hp|]; [|done]. split; fields.
    + done.
    + intros i ji r [[-> (j0 & Hj0 & ->)]|[Hne Hi]]%lookup_alter_Some Hsi Hr.
      * by apply Hjlt.
      * apply (Hah i ji r); [done..|by right].
    + intros i k ji jk Hi Hk Hlt Hsk.
      apply lookup_alter_Some in Hk as [[-> (j0 & Hj0 & ->)]|[Hnek Hk]].
      * (* the job just started: nothing before it is pending *)
        apply lookup_alter_Some in Hi as [[-> _]|[Hnei Hi]]; [lia|].
        destruct (status ji) eqn:Hsi; auto.
        -- pose proof (core_queued _ HC i ji Hi Hsi) as Hin.
           rewrite Hits in Hin. apply elem_of_cons in Hin as [->|Hin]; [lia|].
           apply Hjlt in Hin. lia.
        -- by destruct (Hnone i ji Hi).
      * apply lookup_alter_Some in Hi as [[-> (j0 & Hj0 & ->)]|[Hnei Hi]].
        -- assert (j0 = job) as -> by congruence.
           destruct (Hse j k job jk Hjob Hk Hlt Hsk); congruence.
        -- eauto.
Qed.

Lemma Fifo_init : Fifo init.
Proof.
  split; simpl.
  - constructor.
  - intros i job r Hi. by destruct i.
  - intros i k ji jk Hi. by destruct i.
Qed.

Lemma Fifo_step e s o s' : Inv s → Fifo s → step e s = Some (o, s') → Fifo s'.
Proof.
  intros [HC HW] HF He. destruct e as [params now t|seg| |k now t].
  - cbn [step] in He. unfold enqueue in He.
    pose proof (Core_enqueue_accept params now s HC) as HC2.
    pose proof (Fifo_enqueue_accept params now s HC HF) as HF2.
    pose proof (enqueue_accept_isProcessing params now s) as Hflag.
    pose proof (enqueue_accept_Processing params now s) as Hproc.
    destruct (enqueue_accept params now s) as [r s2].
    injection He as <- <-. cbn [snd] in *. rewrite Hflag.
    unfold Worker in HW. destruct (isProcessing s); [done|].
    destruct HW as (_ & _ & Hnone). apply Fifo_processNext; [done| |done].
    intros i ji Hi Hsi. eapply Hnone; eauto.
  - injection He as <- <-. by apply Fifo_cancelPendingForSegment.
  - by injection He as <- <-.
  - simpl in He. destruct (suspended s !! k) as [f|] eqn:Hk; [|done].
    injection He as <- <-. unfold Worker in HW. destruct (isProcessing s).
    2:{ destruct HW as [Hnil _]. by rewrite Hnil in Hk. }
    destruct HW as (f' & jf & Hf & Hjf & Hst & Huniq).
    rewrite Hf in Hk. apply list_lookup_singleton_Some in Hk as [_ ->].
    unfold resume. apply Fifo_processNext; fields.
    + by apply (Core_finish s (f_job f) jf).
    + intros i ji [[-> (j0 & Hj0 & ->)]|[Hne Hi]]%lookup_alter_Some Hsi;
        [done|]. by apply Hne, Huniq with ji.
    + by apply (Fifo_finish s (f_job f) jf).
Qed.

Lemma Fifo_run es : ∀ s os s',
  Inv s → Fifo s → run es s = Some (os, s') → Fifo s'.
Proof.
  induction es as [|e es IH]; intros s os s' HI HF.
  - simpl. by intros [= <- <-].
  - rewrite run_cons. destruct (step e s) as [[o s1]|] eqn:He; [|done].
    simpl. destruct (run es s1) as [[os1 s2]|] eqn:Hr; [|done].
    simpl. intros [= <- <-].
    eapply (IH s1); eauto using Inv_step, Fifo_step.
Qed.

(** X7: first come, first served.  In every reachable state the queue
    lists its jobs in the order of submission, every started job (one
    that is processing or done) was submitted before all queued ones,
    and every job submitted before a started job is done or cancelled:
    no earlier job is still waiting or running. *)
Theorem jobs_start_in_submission_order s :
  reachable s →
  StronglySorted lt (Queue.toArray (queue s)) ∧
  (∀ i job r, history s !! i = Some job → started job →
              r ∈ Queue.toArray (queue s) → (i < r)%nat) ∧
  ∀ i k ji jk, history s !! i = Some ji → history s !! k = Some jk →
               (i < k)%nat → started jk →
               status ji = Done ∨ status ji = Cancelled.
Proof.
  intros (es & os & Hr).
  destruct (Fifo_run es init os s Inv_init Fifo_init Hr) as [Hso Hah Hse].
  split_and!; done.
Qed.

Lemma reachable_second_started :
  reachable (state_after (resubmit_seg_002 ++ take 1 drain)).
Proof. eexists (resubmit_seg_002 ++ take 1 drain), _. vm_compute. reflexivity. Qed.

Lemma jobs_start_in_submission_order_witness :
  let s := state_after (resubmit_seg_002 ++ take 1 drain) in
  Queue.toArray (queue s) = [3%nat] ∧
  status_at s 2 = Some Processing ∧
  (StronglySorted lt (Queue.toArray (queue s)) ∧
   (∀ i job r, history s !! i = Some job → started job →
               r ∈ Queue.toArray (queue s) → (i < r)%nat) ∧
   ∀ i k ji jk, history s !! i = Some ji → history s !! k = Some jk →
                (i < k)%nat → started jk →
                status ji = Done ∨ status ji = Cancelled).
Proof.
  intros s. split; [reflexivity|]. split; [reflexivity|].
  apply (jobs_start_in_submission_order s), reachable_second_started.
Defined.

(** ** Priority and the order of arrival *)

Lemma reachable_Fifo s : reachable s → Fifo s.
Proof. intros (es & os & Hr). exact (Fifo_run es init os s Inv_init Fifo_init Hr). Qed.

Lemma reachable_enqueue params now t s :
  reachable s → reachable (enqueue params now t s).2.
Proof.
  intros Hs.
  apply (reachable_run [CallEnqueue params now t] s
           [RetJob (enqueue params now t s).1]); [done|].
  cbn [run step]. by destruct (enqueue params now t s).
Qed.

(** C4: the priority of a submission changes nothing but the [priority]
    field of the new record.  Whatever the priority, [enqueue] appends
    the new reference to the tail of the queue and then either returns
    (a worker is active) or runs [processNext]; two calls that differ
    only in priority return the same reference and leave the same queue,
    the same frames and the same history up to that field.  In a
    reachable state the queue the call leaves lists its jobs in the
    order of their arrival. *)
Theorem priority_does_not_change_queue_position seg eff pr pr' now t s :
  let s1 := (enqueue_accept (mkParams seg eff pr) now s).2 in
  let r := enqueue (mkParams seg eff pr) now t s in
  let r' := enqueue (mkParams seg eff pr') now t s in
  Queue.items (queue s1) = Queue.items (queue s) ++ [length (history s)] ∧
  r'.1 = r.1 ∧ r'.2 = with_priority pr' r.1 r.2 ∧
  r.1 = length (history s) ∧
  (isProcessing s = true →
     r.2 = s1 ∧
     Queue.toArray (queue r.2) = Queue.toArray (queue s) ++ [r.1] ∧
     Queue.toArray (queue r'.2) = Queue.toArray (queue s) ++ [r.1]) ∧
  (isProcessing s = false → r.2 = processNext t s1) ∧
  (reachable s →
     StronglySorted lt (Queue.toArray (queue r.2)) ∧
     Queue.toArray (queue r'.2) = Queue.toArray (queue r.2)).
Proof.
  intros s1 r r'.
  assert (Queue.items (queue s1) = Queue.items (queue s) ++ [length (history s)])
    as Hq by (subst s1; unfold enqueue_accept; fields; by rewrite length_fmap).
  assert (r'.2 = with_priority pr' r.1 r.2) as Hpr.
  { subst r r'. rewrite !enqueue_fst, !enqueue_snd.
    assert ((enqueue_accept (mkParams seg eff pr') now s).2 =
            with_priority pr' (length (history s))
              (enqueue_accept (mkParams seg eff pr) now s).2) as ->.
    { unfold enqueue_accept, with_priority. fields. f_equal.
      rewrite <- (length_fmap (cancel_if_pending seg) (history s)).
      cbn [p_segmentId p_effect p_priority].
      by rewrite <- (Nat.add_0_r (length _)), alter_app_r. }
    destruct (isProcessing s); [done|]. apply processNext_with_priority. }
  split_and!.
  - done.
  - subst r r'. by rewrite !enqueue_fst.
  - done.
  - apply enqueue_fst.
  - intros Hb. rewrite Hpr. subst r. rewrite enqueue_fst, enqueue_snd, Hb.
    split_and!; done.
  - intros Hb. subst r. by rewrite enqueue_snd, Hb.
  - intros Hs. split.
    + apply (fifo_sorted _ (reachable_Fifo _ (reachable_enqueue _ now t s Hs))).
    + by rewrite Hpr.
Qed.

Lemma priority_does_not_change_queue_position_witness :
  let busy := state_after resubmit_seg_002 in
  let r := enqueue (mkParams "seg_009" "trim" Low) 200 200 busy in
  let r' := enqueue (mkParams "seg_009" "trim" High) 200 200 busy in
  (r.2 = (enqueue_accept (mkParams "seg_009" "trim" Low) 200 busy).2 ∧
   Queue.toArray (queue r.2) = Queue.toArray (queue busy) ++ [r.1] ∧
   Queue.toArray (queue r'.2) = Queue.toArray (queue busy) ++ [r.1]) ∧
  (StronglySorted lt (Queue.toArray (queue r.2)) ∧
   Queue.toArray (queue r'.2) = Queue.toArray (queue r.2)).
Proof.
  intros busy r r'. split.
  - apply (priority_does_not_change_queue_position
             "seg_009" "trim" Low High 200 200 busy). reflexivity.
  - apply (priority_does_not_change_queue_position
             "seg_009" "trim" Low High 200 200 busy).
    apply reachable_resubmit_seg_002.
Defined.

(** ** Effects outside the duration table *)

(** [times[effect]] is a number exactly for the five members of
    [EffectType]. *)
Lemma estimateRenderTime_number (e : string) :
  e ∈ EffectType_members ↔ ∃ ms, estimateRenderTime e = TNumber ms.
Proof.
  unfold estimateRenderTime. split.
  - unfold EffectType_members. rewrite !elem_of_cons, elem_of_nil.
    intros [->|[->|[->|[->|[->|[]]]]]]; eexists; reflexivity.
  - intros [ms Hms]. destruct (times !! e) as [ms'|] eqn:He.
    + apply elem_of_dom_2 in He. unfold times in He.
      rewrite dom_list_to_map_L in He. cbn [fmap list_fmap fst] in He.
      rewrite elem_of_list_to_set, !elem_of_cons, elem_of_nil in He.
      unfold EffectType_members. rewrite !elem_of_cons, elem_of_nil. tauto.
    + by case_bool_decide.
Qed.

(** For any other string it is a member inherited from
    [Object.prototype], or [undefined]. *)
Lemma estimateRenderTime_not_number (e : string) :
  (e ∉ EffectType_members) →
  (e ∈ Object_prototype_members ∧ estimateRenderTime e = TInherited e) ∨
  ((e ∉ Object_prototype_members) ∧ estimateRenderTime e = TUndefined).
Proof.
  intros Hn. unfold estimateRenderTime.
  destruct (times !! e) as [ms|] eqn:He.
  - destruct Hn. apply estimateRenderTime_number. exists ms.
    unfold estimateRenderTime. by rewrite He.
  - case_bool_decide; [by left|by right].
Qed.

(** The record created by a call is in the history the call leaves, at
    the returned position, with the fields of the call. *)
Lemma enqueue_record params now t s :
  let r := enqueue params now t s in
  ∃ job, history r.2 !! r.1 = Some job ∧
         segmentId job = p_segmentId params ∧
         effect job = p_effect params ∧
         priority job = p_priority params ∧
         (status job = Pending ∨ status job = Processing).
Proof.
  intros r. subst r. rewrite enqueue_fst, enqueue_snd.
  pose proof (enqueue_accept_new params now s) as Hnew.
  destruct (isProcessing s).
  - eexists. split; [exact Hnew|]. split_and!; try done. by left.
  - destruct (processNext_history t (enqueue_accept params now s).2)
      as [->|(j & jj & _ & _ & _ & ->)].
    + eexists. split; [exact Hnew|]. split_and!; try done. by left.
    + destruct (decide (j = length (history s))) as [->|Hne].
      * rewrite list_lookup_alter_eq, Hnew. eexists. split; [done|].
        split_and!; try done. by right.
      * rewrite list_lookup_alter_ne by done. eexists.
        split; [exact Hnew|]. split_and!; try done. by left.
Qed.

(** C5, as stated, fails: a submission with an effect that the duration
    policy does not have is not rejected at submit time.  The call
    returns the new job, which is in the history and already processing,
    and the undefined value of the lookup has gone on to [sleep]. *)
Lemma enqueue_accepts_unknown_effect :
  let r := enqueue (mkParams "seg_X" "sepia" Normal) 0 0 init in
  ("sepia" ∉ EffectType_members) ∧
  estimateRenderTime "sepia" = TUndefined ∧
  r.1 = 0%nat ∧
  history r.2 =
    [mkRenderJob "job_1" "seg_X" "sepia" Normal 0 Processing None] ∧
  suspended r.2 = [mkFrame 0 0 TUndefined].
Proof.
  split_and!; try reflexivity.
  unfold EffectType_members. rewrite !elem_of_cons, elem_of_nil.
  intros [?|[?|[?|[?|[?|[]]]]]]; discriminate.
Qed.

(** C5, amended.  [enqueue] looks at no field of its argument but
    [segmentId] and never rejects a call: for every effect, in the
    duration table or not, the call appends a record with that effect to
    the history and returns it.  When the call starts the worker, the
    value of [times[effect]] is handed to [sleep] as it is.  That value
    is a number exactly for the five members of [EffectType]; for any
    other string it is a member inherited from [Object.prototype] or
    [undefined]. *)
Theorem enqueue_accepts_every_effect params now t s :
  let r := enqueue params now t s in
  (r.1 = length (history s) ∧
   length (history r.2) = S (length (history s)) ∧
   ∃ job, history r.2 !! r.1 = Some job ∧ effect job = p_effect params ∧
          (status job = Pending ∨ status job = Processing)) ∧
  (reachable s → isProcessing s = false →
     suspended r.2 = [mkFrame r.1 t (estimateRenderTime (p_effect params))]) ∧
  (p_effect params ∈ EffectType_members ↔
     ∃ ms, estimateRenderTime (p_effect params) = TNumber ms) ∧
  ((p_effect params ∉ EffectType_members) →
     (p_effect params ∈ Object_prototype_members ∧
      estimateRenderTime (p_effect params) = TInherited (p_effect params)) ∨
     ((p_effect params ∉ Object_prototype_members) ∧
      estimateRenderTime (p_effect params) = TUndefined)).
Proof.
  intros r. split_and!.
  - apply enqueue_fst.
  - subst r. rewrite enqueue_snd.
    assert (length (history (enqueue_accept params now s).2)
            = S (length (history s))) as Hlen
      by (unfold enqueue_accept; fields;
          rewrite length_app, length_fmap; simpl; lia).
    destruct (isProcessing s); [done|].
    by rewrite processNext_history_length.
  - destruct (enqueue_record params now t s) as (job & Hj & _ & He & _ & Hst).
    eauto.
  - intros HI%reachable_Inv Hb. subst r.
    rewrite (enqueue_idle_starts params now t s HI Hb), enqueue_fst. done.
  - apply estimateRenderTime_number.
  - apply estimateRenderTime_not_number.
Qed.

Lemma enqueue_accepts_every_effect_witness :
  let r := enqueue (mkParams "seg_X" "toString" Normal) 5 6 init in
  suspended r.2 = [mkFrame r.1 6 (estimateRenderTime "toString")] ∧
  ((("toString" : string) ∈ Object_prototype_members ∧
    estimateRenderTime "toString" = TInherited "toString") ∨
   (((("toString" : string)) ∉ Object_prototype_members) ∧
    estimateRenderTime "toString" = TUndefined)).
Proof.
  intros r. split.
  - apply (enqueue_accepts_every_effect
             (mkParams "seg_X" "toString" Normal) 5 6 init);
      [apply reachable_init|reflexivity].
  - apply (enqueue_accepts_every_effect
             (mkParams "seg_X" "toString" Normal) 5 6 init).
    unfold EffectType_members. simpl.
    rewrite !elem_of_cons, elem_of_nil.
    intros [?|[?|[?|[?|[?|[]]]]]]; discriminate.
Defined.

(** ** What [getStats] counts *)

Lemma count_status_cons st job h :
  count_status st (job :: h) =
  (if decide (status job = st) then 1 else 0) + count_status st h.
Proof.
  unfold count_status. rewrite filter_cons.
  case_decide; cbn [length]; lia.
Qed.

Lemma foldl_stats_step_counts h : ∀ acc,
  let c := (foldl stats_step acc h).1 in
  c_pending c = c_pending acc.1 + count_status Pending h ∧
  c_processing c = c_processing acc.1 + count_status Processing h ∧
  c_done c = c_done acc.1 + count_status Done h ∧
  c_cancelled c = c_cancelled acc.1 + count_status Cancelled h.
Proof.
  induction h as [|job h IH]; intros [c rts].
  - unfold count_status. simpl. lia.
  - cbn [foldl]. cbn zeta in *.
    destruct (IH (stats_step (c, rts) job)) as (-> & -> & -> & ->).
    rewrite !count_status_cons. cbn [stats_step fst].
    unfold bump. destruct (status job); repeat case_decide; try done;
      cbn [c_pending c_processing c_done c_cancelled]; lia.
Qed.

Lemma getStats_counts_by_status_aux s :
  pending (getStats s) = count_status Pending (history s) ∧
  processing (getStats s) = count_status Processing (history s) ∧
  done (getStats s) = count_status Done (history s) ∧
  cancelled (getStats s) = count_status Cancelled (history s).
Proof.
  rewrite getStats_eq. cbn zeta. cbn [pending processing done cancelled].
  destruct (foldl_stats_step_counts (history s) (mkCounts 0 0 0 0, []))
    as (-> & -> & -> & ->). simpl. lia.
Qed.

(** X9: each of the four counts of [getStats] is the number of jobs of
    the history with that status, in any state. *)
Theorem getStats_counts_by_status s :
  pending (getStats s) = count_status Pending (history s) ∧
  processing (getStats s) = count_status Processing (history s) ∧
  done (getStats s) = count_status Done (history s) ∧
  cancelled (getStats s) = count_status Cancelled (history s).
Proof. apply getStats_counts_by_status_aux. Qed.

Lemma count_status_none st (h : list RenderJob) :
  (∀ i job, h !! i = Some job → status job ≠ st) → count_status st h = 0.
Proof.
  induction h as [|job h IH]; intros Hnone; [done|].
  rewrite count_status_cons, IH.
  - rewrite decide_False; [done|]. by apply (Hnone 0%nat).
  - intros i ji Hi. by apply (Hnone (S i)).
Qed.

Lemma count_status_one st (h : list RenderJob) : ∀ j job,
  h !! j = Some job → status job = st →
  (∀ i ji, h !! i = Some ji → status ji = st → i = j) →
  count_status st h = 1.
Proof.
  induction h as [|x h IH]; intros j job Hj Hst Huniq; [by destruct j|].
  rewrite count_status_cons. destruct j as [|j].
  - injection Hj as ->. rewrite decide_True by done.
    rewrite count_status_none; [done|].
    intros i ji Hi Hsi. by specialize (Huniq (S i) ji Hi Hsi).
  - rewrite decide_False.
    + rewrite (IH j job); [done..|].
      intros i ji Hi Hsi. by specialize (Huniq (S i) ji Hi Hsi) as [= ->].
    + intros Hx. by specialize (Huniq 0%nat x eq_refl Hx).
Qed.

(** X10: in a reachable state [getStats] reports one processing job
    while the worker is active and none while it is idle, and an idle
    worker leaves no pending job either. *)
Theorem getStats_processing_follows_worker s :
  reachable s →
  processing (getStats s) = (if isProcessing s then 1 else 0) ∧
  (isProcessing s = false → pending (getStats s) = 0).
Proof.
  intros [HC HW]%reachable_Inv.
  destruct (getStats_counts_by_status_aux s) as (Hp & -> & _).
  unfold Worker in HW. destruct (isProcessing s).
  - destruct HW as (f & job & _ & Hjob & Hst & Huniq). split; [|done].
    by apply (count_status_one _ _ (f_job f) job).
  - destruct HW as (_ & Hits & Hnone). split.
    + by apply count_status_none.
    + intros _. rewrite Hp. apply count_status_none.
      intros i job Hi Hst. pose proof (core_queued _ HC i job Hi Hst) as Hin.
      rewrite Hits in Hin. by apply elem_of_nil in Hin.
Qed.

Lemma getStats_processing_follows_worker_witness :
  processing (getStats (state_after resubmit_seg_002)) = 1 ∧
  pending (getStats (state_after (resubmit_seg_002 ++ drain))) = 0.
Proof.
  split.
  - apply (getStats_processing_follows_worker (state_after resubmit_seg_002)).
    apply reachable_resubmit_seg_002.
  - destruct (getStats_processing_follows_worker
                (state_after (resubmit_seg_002 ++ drain)) reachable_drained)
      as [_ Hp].
    apply Hp. reflexivity.
Defined.

(** ** The worker empties the queue *)

Lemma timer_events_S clock n :
  timer_events clock (S n) =
  TimerFires 0 (clock 0%nat).1 (clock 0%nat).2
  :: timer_events (clock ∘ S) n.
Proof.
  unfold timer_events. cbn [seq fmap list_fmap]. f_equal.
  rewrite <- fmap_S_seq, <- list_fmap_compose. done.
Qed.

(** [processNext] never lengthens the queue, and it shortens it when it
    starts a job. *)
Lemma processNext_queue_shrinks t s :
  Core s →
  if isProcessing (processNext t s)
  then (length (Queue.items (queue (processNext t s)))
        < length (Queue.items (queue s)))%nat
  else True.
Proof.
  remember (Queue.items (queue s)) as its eqn:Hits.
  revert s Hits. induction its as [|j rest IH]; intros s Hits HC;
    symmetry in Hits; rewrite processNext_eq, Hits;
    pose proof (core_size _ HC) as Hsz; rewrite Hits in Hsz; simpl in Hsz;
    destruct (Queue.isEmpty (queue s)) eqn:Hemp;
    unfold Queue.isEmpty in Hemp; try lia; try done.
  destruct (core_queue _ HC j) as (job & Hjob & Hst); [rewrite Hits; left|].
  rewrite Hjob. cbn zeta. case_bool_decide as Hc.
  - match goal with |- context [processNext t ?s1] =>
      specialize (IH s1 eq_refl); destruct (isProcessing (processNext t s1))
    end; [|done].
    simpl. etrans; [apply IH|lia].
    apply (Core_skip s j rest); [done..|]. intros job' ?. congruence.
  - simpl. lia.
Qed.

Lemma Inv_idle_settled s :
  Inv s → isProcessing s = false →
  Queue.items (queue s) = [] ∧
  ∀ i job, history s !! i = Some job →
           status job = Done ∨ status job = Cancelled.
Proof.
  intros [HC HW] Hb. unfold Worker in HW. rewrite Hb in HW.
  destruct HW as (_ & Hits & Hnone). split; [done|].
  intros i job Hi. destruct (status job) eqn:Hst; auto.
  - pose proof (core_queued _ HC i job Hi Hst) as Hin.
    rewrite Hits in Hin. by apply elem_of_nil in Hin.
  - by destruct (Hnone i job Hi).
Qed.

Lemma Inv_drains : ∀ n s clock,
  Inv s → (length (Queue.items (queue s)) < n)%nat →
  ∃ m os s', (m ≤ n)%nat ∧
             run (timer_events clock m) s = Some (os, s') ∧
             Inv s' ∧ isProcessing s' = false.
Proof.
  induction n as [|n IH]; intros s clock HI Hlen; [lia|].
  destruct (isProcessing s) eqn:Hb.
  - pose proof HI as [HC HW]. unfold Worker in HW. rewrite Hb in HW.
    destruct HW as (f & jf & Hf & Hjf & Hst & _).
    destruct (step (TimerFires 0 (clock 0%nat).1 (clock 0%nat).2) s)
      as [[o s1]|] eqn:He; [|by simpl in He; rewrite Hf in He].
    pose proof (Inv_step _ _ _ _ HI He) as HI1.
    assert (isProcessing s1 = true →
            (length (Queue.items (queue s1))
             < length (Queue.items (queue s)))%nat) as Hshrink.
    { simpl in He. rewrite Hf in He. simpl in He. injection He as _ <-.
      unfold resume.
      match goal with |- context [processNext ?t ?s0] =>
        pose proof (processNext_queue_shrinks t s0
                      (Core_finish s (f_job f) jf _ HC Hjf Hst _ _ _)) as Hq;
        destruct (isProcessing (processNext t s0))
      end; [|done]. intros _. exact Hq. }
    destruct (isProcessing s1) eqn:Hb1.
    + destruct (IH s1 (clock ∘ S) HI1) as (m & os & s' & Hm & Hr & HI' & Hb');
        [specialize (Hshrink eq_refl); lia|].
      exists (S m), (o :: os), s'. split_and!; [lia| |done|done].
      rewrite timer_events_S, run_cons, He. simpl. by rewrite Hr.
    + exists 1%nat, [o], s1. split_and!; [lia| |done|done].
      rewrite timer_events_S, run_cons, He. done.
  - exists 0%nat, [], s. split_and!; [lia|done|done|done].
Qed.

(** X8: the worker empties the queue.  From any reachable state, let
    the timer fire often enough, at most once more than there are
    queued jobs and whatever the clock shows: the worker is then idle,
    the queue is empty and every job is done or cancelled. *)
Theorem worker_drains_queue s clock :
  reachable s →
  ∃ n os s',
    (n ≤ S (length (Queue.toArray (queue s))))%nat ∧
    run (timer_events clock n) s = Some (os, s') ∧
    isProcessing s' = false ∧ Queue.toArray (queue s') = [] ∧
    Queue.isEmpty (queue s') = true ∧
    ∀ i job, history s' !! i = Some job →
             status job = Done ∨ status job = Cancelled.
Proof.
  intros HI%reachable_Inv.
  destruct (Inv_drains (S (length (Queue.items (queue s)))) s clock HI)
    as (n & os & s' & Hn & Hr & HI' & Hb'); [lia|].
  exists n, os, s'. destruct (Inv_idle_settled s' HI' Hb') as [Hits Hall].
  split_and!; try done.
  unfold Queue.isEmpty. rewrite (core_size _ (inv_core _ HI')), Hits. done.
Qed.

Lemma worker_drains_queue_witness :
  ∃ n os s',
    (n ≤ S (length (Queue.toArray (queue (state_after resubmit_seg_002)))))%nat ∧
    run (timer_events (λ k, (Z.of_nat k, Z.of_nat k)) n)
        (state_after resubmit_seg_002) = Some (os, s') ∧
    isProcessing s' = false ∧ Queue.toArray (queue s') = [] ∧
    Queue.isEmpty (queue s') = true ∧
    ∀ i job, history s' !! i = Some job →
             status job = Done ∨ status job = Cancelled.
Proof.
  apply (worker_drains_queue (state_after resubmit_seg_002)).
  apply reachable_resubmit_seg_002.
Defined.

(** ** One worker, one timer *)

(** X11: at most one worker loop is ever active.  In a reachable state
    exactly one call of [processNext] is suspended when [isProcessing] is
    set and none when it is not; the job of the suspended call is
    processing; so only the timer of that call can fire. *)
Theorem at_most_one_worker s :
  reachable s →
  length (suspended s) = (if isProcessing s then 1 else 0)%nat ∧
  (∀ f, f ∈ suspended s → status_at s (f_job f) = Some Processing) ∧
  (∀ k now t, is_Some (step (TimerFires k now t) s) ↔
              k = 0%nat ∧ isProcessing s = true).
Proof.
  intros [HC HW]%reachable_Inv. unfold Worker in HW.
  destruct (isProcessing s).
  - destruct HW as (f & job & Hf & Hjob & Hst & _). rewrite Hf.
    split_and!; [done| |].
    + intros f' ->%list_elem_of_singleton. unfold status_at.
      by rewrite Hjob, <- Hst.
    + intros k now t. simpl. rewrite Hf. destruct k as [|k]; simpl.
      * split; [done|by eexists].
      * split; [by intros [? ?]|by intros [? _]].
  - destruct HW as (Hnil & _). rewrite Hnil. split_and!; [done| |].
    + intros f Hin. by apply elem_of_nil in Hin.
    + intros k now t. simpl. rewrite Hnil. simpl.
      split; [by intros [? ?]|by intros [_ ?]].
Qed.

Lemma at_most_one_worker_witness :
  length (suspended (state_after resubmit_seg_002)) = 1%nat ∧
  is_Some (step (TimerFires 0 351 351) (state_after resubmit_seg_002)).
Proof.
  destruct (at_most_one_worker (state_after resubmit_seg_002)
              reachable_resubmit_seg_002) as (Hlen & _ & Hstep).
  split; [exact Hlen|]. apply Hstep. split; reflexivity.
Defined.

(** X12: when the timer fires, the job of the suspended call, and only
    that job, becomes done, with [durationMs] the reading of the clock
    minus the [startTime] the call had taken. *)
Theorem timer_finishes_the_processing_job k now t s o s' :
  reachable s → step (TimerFires k now t) s = Some (o, s') →
  ∃ f job,
    suspended s = [f] ∧ history s !! f_job f = Some job ∧
    status job = Processing ∧
    history s' !! f_job f
    = Some (set_durationMs (now - f_startTime f) (set_status Done job)) ∧
    ∀ i ji, i ≠ f_job f → history s !! i = Some ji → status ji = Done →
            history s' !! i = Some ji.
Proof.
  intros HI%reachable_Inv He. pose proof HI as [HC HW].
  pose proof He as He0.
  simpl in He. destruct (suspended s !! k) as [f|] eqn:Hk; [|done].
  injection He as <- <-. unfold Worker in HW. destruct (isProcessing s).
  2:{ destruct HW as [Hnil _]. by rewrite Hnil in Hk. }
  destruct HW as (f' & jf & Hf & Hjf & Hst & _).
  rewrite Hf in Hk. apply list_lookup_singleton_Some in Hk as [_ ->].
  exists f, jf. split_and!; try done.
  - unfold resume.
    pose proof (Core_finish s (f_job f) jf (now - f_startTime f) HC Hjf Hst
                  (cancelledSegments s) true (delete k (suspended s))) as HC1.
    match goal with |- context [processNext t ?s1] =>
      destruct (processNext_job_step t s1 (f_job f)
                  (set_durationMs (now - f_startTime f) (set_status Done jf))
                  HC1) as (job' & Hi' & Hstep)
    end.
    { fields. by rewrite list_lookup_alter_eq, Hjf. }
    rewrite (job_step_final
               (set_durationMs (now - f_startTime f) (set_status Done jf))
               job' (or_introl eq_refl) Hstep) in Hi'.
    exact Hi'.
  - intros i ji Hne Hi Hd.
    destruct (Inv_step_job _ s _ _ i ji HI He0 Hi) as (job' & Hi' & Hstep).
    by rewrite Hi', (job_step_final ji job' (or_introl Hd) Hstep).
Qed.

Lemma timer_finishes_the_processing_job_witness :
  ∃ f job,
    suspended (state_after resubmit_seg_002) = [f] ∧
    history (state_after resubmit_seg_002) !! f_job f = Some job ∧
    status job = Processing ∧
    history (state_after (resubmit_seg_002 ++ [TimerFires 0 351 351]))
      !! f_job f
    = Some (set_durationMs (351 - f_startTime f) (set_status Done job)) ∧
    ∀ i ji, i ≠ f_job f →
            history (state_after resubmit_seg_002) !! i = Some ji →
            status ji = Done →
            history (state_after (resubmit_seg_002 ++ [TimerFires 0 351 351]))
              !! i = Some ji.
Proof.
  apply (timer_finishes_the_processing_job 0 351 351
           (state_after resubmit_seg_002) NoCaller).
  - apply reachable_resubmit_seg_002.
  - vm_compute. reflexivity.
Defined.

(** ** One job from an idle scheduler *)

(** X13: submitted to an idle scheduler in a reachable state, a job is
    processing when [enqueue] returns, and when the timer fires it is
    done with [durationMs] the time between the two readings; the
    history is the old one with that record appended, the queue is
    empty again and the worker idle. *)
Theorem enqueue_on_idle_runs_to_done params now t now' t' s :
  reachable s → isProcessing s = false →
  ∃ os s',
    run [CallEnqueue params now t; TimerFires 0 now' t'] s = Some (os, s') ∧
    os = [RetJob (length (history s)); NoCaller] ∧
    history s' =
      history s ++
      [mkRenderJob ("job_" +:+ pretty (jobCounter s + 1)) (p_segmentId params)
                   (p_effect params) (p_priority params) now Done
                   (Some (now' - t))] ∧
    isProcessing s' = false ∧ queue s' = Queue.empty ∧ suspended s' = [].
Proof.
  intros HI%reachable_Inv Hb.
  pose proof (enqueue_idle_starts params now t s HI Hb) as Hs1.
  pose proof (enqueue_fst params now t s) as Hr.
  destruct (Inv_idle_settled s HI Hb) as [_ Hall].
  assert (cancel_if_pending (p_segmentId params) <$> history s = history s)
    as Hsame.
  { rewrite <- (list_fmap_id (history s)) at 2. apply list_fmap_ext.
    intros i job Hi. apply cancel_if_pending_miss. intros [_ Hp].
    change (status job = Pending) in Hp.
    destruct (Hall i job Hi); congruence. }
  cbn [run step]. destruct (enqueue params now t s) as [r s1].
  cbn [fst snd] in *. subst r s1. cbn [mbind option_bind suspended lookup].
  simpl. eexists _, _. split; [reflexivity|]. split; [done|].
  unfold resume. rewrite processNext_eq. unfold enqueue_accept. fields.
  change (Queue.isEmpty (Queue.mk [] 0)) with true. cbn iota. fields.
  split_and!; try done.
  rewrite Hsame, list_alter_alter_eq.
  rewrite <- (Nat.add_0_r (length (history s))), alter_app_r. done.
Qed.

Lemma enqueue_on_idle_runs_to_done_witness :
  ∃ os s',
    run [CallEnqueue (mkParams "seg_009" "trim" Low) 1000 1001;
         TimerFires 0 1101 1102]
        (state_after (resubmit_seg_002 ++ drain)) = Some (os, s') ∧
    os = [RetJob (length (history (state_after (resubmit_seg_002 ++ drain))));
          NoCaller] ∧
    history s' =
      history (state_after (resubmit_seg_002 ++ drain)) ++
      [mkRenderJob
         ("job_" +:+ pretty (jobCounter (state_after (resubmit_seg_002 ++ drain))
                             + 1))
         "seg_009" "trim" Low 1000 Done (Some (1101 - 1001))] ∧
    isProcessing s' = false ∧ queue s' = Queue.empty ∧ suspended s' = [].
Proof.
  apply (enqueue_on_idle_runs_to_done (mkParams "seg_009" "trim" Low)
           1000 1001 1101 1102 (state_after (resubmit_seg_002 ++ drain))).
  - eexists (resubmit_seg_002 ++ drain), _. vm_compute. reflexivity.
  - reflexivity.
Defined.

(** ** More on [cancelPendingForSegment] *)

Lemma cancel_if_pending_comm a b job :
  cancel_if_pending a (cancel_if_pending b job)
  = cancel_if_pending b (cancel_if_pending a job).
Proof.
  unfold cancel_if_pending.
  destruct (bool_decide (segmentId job = a)) eqn:Ha,
    (bool_decide (segmentId job = b)) eqn:Hb,
    (bool_decide (status job = Pending)) eqn:Hp;
    cbn [andb set_status segmentId status]; rewrite ?Ha, ?Hb, ?Hp;
    cbn [andb]; rewrite ?andb_false_r; done.
Qed.

(** X14: after [cancelPendingForSegment(seg)] no job of the segment is
    pending; jobs of other segments and jobs that were not pending are
    as before; the queue is left as it is (the cancelled jobs stay in
    it); and cancelling two segments gives the same state in either
    order. *)
Theorem cancelPendingForSegment_cancels_exactly_the_segment seg seg' s :
  (∀ i job, history (cancelPendingForSegment seg s) !! i = Some job →
            segmentId job = seg → status job ≠ Pending) ∧
  (∀ i job, history s !! i = Some job →
            segmentId job ≠ seg ∨ status job ≠ Pending →
            history (cancelPendingForSegment seg s) !! i = Some job) ∧
  (∀ i job, history s !! i = Some job →
            segmentId job = seg → status job = Pending →
            history (cancelPendingForSegment seg s) !! i
            = Some (set_status Cancelled job)) ∧
  queue (cancelPendingForSegment seg s) = queue s ∧
  cancelPendingForSegment seg (cancelPendingForSegment seg' s)
  = cancelPendingForSegment seg' (cancelPendingForSegment seg s).
Proof.
  split_and!.
  - apply cancelPendingForSegment_none_pending.
  - intros i job Hi Hno. fields. rewrite lookup_cancel, Hi. simpl. f_equal.
    apply cancel_if_pending_miss. tauto.
  - intros i job Hi Hseg Hp. fields. rewrite lookup_cancel, Hi. simpl.
    f_equal. by apply cancel_if_pending_hit.
  - done.
  - unfold cancelPendingForSegment. fields. f_equal.
    + rewrite <- !list_fmap_compose. apply list_fmap_ext.
      intros i job _. apply cancel_if_pending_comm.
    + rewrite !(assoc_L (∪)). f_equal. apply (comm_L (∪)).
Qed.

Lemma cancelPendingForSegment_cancels_exactly_the_segment_witness :
  history (cancelPendingForSegment "seg_003" (state_after resubmit_seg_002))
    !! 2%nat
  = Some (set_status Cancelled
            (mkRenderJob "job_3" "seg_003" "transition" Normal 0 Pending None)).
Proof.
  apply (cancelPendingForSegment_cancels_exactly_the_segment
           "seg_003" "seg_001" (state_after resubmit_seg_002));
    reflexivity.
Defined.

(** ** Pending jobs and the queue *)

Lemma pending_refs_cons g job h :
  pending_refs g (job :: h) =
  (if decide (status job = Pending) then [g 0%nat] else [])
  ++ pending_refs (g ∘ S) h.
Proof. unfold pending_refs. cbn [imap omap list_omap]. by case_decide. Qed.

Lemma pending_refs_length g h :
  Z.of_nat (length (pending_refs g h)) = count_status Pending h.
Proof.
  revert g. induction h as [|job h IH]; intros g; [done|].
  rewrite pending_refs_cons, count_status_cons, length_app, Nat2Z.inj_add, IH.
  by case_decide.
Qed.

Lemma elem_of_pending_refs g h r :
  r ∈ pending_refs g h ↔
  ∃ i job, h !! i = Some job ∧ status job = Pending ∧ r = g i.
Proof.
  revert g. induction h as [|job h IH]; intros g.
  - split; [by intros ?%elem_of_nil|by intros ([|?] & ? & ? & _)].
  - rewrite pending_refs_cons, elem_of_app, IH. split.
    + intros [Hr|(i & ji & Hi & Hp & ->)].
      * case_decide; [|by apply elem_of_nil in Hr].
        apply list_elem_of_singleton in Hr as ->. by exists 0%nat, job.
      * by exists (S i), ji.
    + intros ([|i] & ji & Hi & Hp & ->).
      * left. injection Hi as ->. rewrite decide_True by done.
        by apply list_elem_of_singleton.
      * right. by exists i, ji.
Qed.

Lemma pending_refs_NoDup g h : Inj (=) (=) g → NoDup (pending_refs g h).
Proof.
  revert g. induction h as [|job h IH]; intros g Hg; [constructor|].
  rewrite pending_refs_cons. apply NoDup_app. split_and!.
  - case_decide; [apply NoDup_singleton|constructor].
  - intros r Hr (i & ji & _ & _ & ->)%elem_of_pending_refs.
    case_decide; [|by apply elem_of_nil in Hr].
    apply list_elem_of_singleton in Hr. by apply Hg in Hr.
  - apply IH. intros x y Hxy. apply Hg in Hxy. by injection Hxy.
Qed.

(** X15: in a reachable state the [pending] count of [getStats] is the
    number of jobs in the queue that are not cancelled, the jobs that
    the worker is still going to run. *)
Theorem getStats_pending_is_live_queue s :
  reachable s →
  pending (getStats s) =
  Z.of_nat (length (filter (λ r, status_at s r = Some Pending)
                           (Queue.toArray (queue s)))).
Proof.
  intros [HC _]%reachable_Inv.
  destruct (getStats_counts_by_status_aux s) as (-> & _).
  rewrite <- (pending_refs_length (λ i, i)). f_equal.
  apply Permutation_length, NoDup_Permutation.
  - apply pending_refs_NoDup. by intros x y.
  - apply NoDup_filter, (core_nodup _ HC).
  - intros r. rewrite elem_of_pending_refs, list_elem_of_filter.
    unfold status_at, Queue.toArray. split.
    + intros (i & job & Hi & Hp & ->). split.
      * by rewrite Hi, <- Hp.
      * by apply (core_queued _ HC i job).
    + intros [Hst Hin]. destruct (history s !! r) as [job|] eqn:Hr; [|done].
      exists r, job. injection Hst as Hst. done.
Qed.

Lemma getStats_pending_is_live_queue_witness :
  pending (getStats (state_after resubmit_seg_002)) =
  Z.of_nat (length (filter (λ r, status_at (state_after resubmit_seg_002) r
                                 = Some Pending)
                           (Queue.toArray (queue (state_after resubmit_seg_002))))).
Proof.
  apply (getStats_pending_is_live_queue (state_after resubmit_seg_002)).
  apply reachable_resubmit_seg_002.
Defined.

(** * The print spooler *)

(** ** Properties of the spooler *)

Ltac sfields :=
  cbn [Spooler.queue Spooler.history Spooler.jobCounter Spooler.suspended
       Queue.items Queue._size Queue.enqueue Spooler.enqueueFront
       fst snd] in *.

Lemma refs_with_cons p off d ds :
  refs_with p off (d :: ds) =
  (if decide (Spooler.n_priority d = p) then [off] else [])
  ++ refs_with p (S off) ds.
Proof.
  unfold refs_with. cbn [imap omap list_omap]. rewrite Nat.add_0_r.
  assert (imap ((λ i d0, if decide (Spooler.n_priority d0 = p)
                         then Some (off + i)%nat else None) ∘ S) ds
          = imap (λ i d0, if decide (Spooler.n_priority d0 = p)
                          then Some (S off + i)%nat else None) ds) as ->.
  { apply imap_ext. intros i x _. simpl. case_decide; [|done].
    f_equal. lia. }
  by case_decide.
Qed.

Lemma sendToPrint_history d s :
  Spooler.history (Spooler.sendToPrint d s).2 =
  Spooler.history s ++
  [Spooler.mkPrintJob
     ("DOC-" +:+ Spooler.padStart 3 "0" (pretty (Spooler.jobCounter s + 1)))
     (Spooler.n_student d) (Spooler.n_document d) (Spooler.n_pages d)
     (Spooler.n_priority d) (Spooler.n_sentAt d) Spooler.Waiting None].
Proof. done. Qed.

Lemma sendToPrint_queue d s :
  Queue.items (Spooler.queue (Spooler.sendToPrint d s).2) =
  match Spooler.n_priority d with
  | Spooler.High => length (Spooler.history s) :: Queue.items (Spooler.queue s)
  | Spooler.Normal => Queue.items (Spooler.queue s) ++ [length (Spooler.history s)]
  end.
Proof. unfold Spooler.sendToPrint. simpl. by destruct (Spooler.n_priority d). Qed.

(** X16: where the jobs of a burst of submissions end up in the queue.
    The jobs of high priority stand before everything that was queued,
    the one sent last first; the jobs of normal priority stand after it,
    in the order in which they were sent. *)
Theorem sendToPrint_queue_order ds s :
  Queue.toArray (Spooler.queue (send_all ds s)) =
  reverse (refs_with Spooler.High (length (Spooler.history s)) ds)
  ++ Queue.toArray (Spooler.queue s)
  ++ refs_with Spooler.Normal (length (Spooler.history s)) ds.
Proof.
  unfold Queue.toArray. revert s. induction ds as [|d ds IH]; intros s.
  - simpl. by rewrite app_nil_r.
  - change (send_all (d :: ds) s)
      with (send_all ds (Spooler.sendToPrint d s).2).
    rewrite IH, sendToPrint_history, length_app, sendToPrint_queue.
    cbn [length]. rewrite Nat.add_1_r, !refs_with_cons.
    destruct (Spooler.n_priority d).
    + rewrite decide_True, decide_False by done.
      rewrite reverse_app, reverse_singleton, <- !app_assoc. done.
    + rewrite decide_False, decide_True by done.
      rewrite <- !app_assoc. done.
Qed.

Lemma slookup_alter_Some (g : Spooler.PrintJob → Spooler.PrintJob)
  (h : list Spooler.PrintJob) j i job' :
  alter g j h !! i = Some job' →
  (i = j ∧ ∃ job, h !! i = Some job ∧ job' = g job) ∨
  (i ≠ j ∧ h !! i = Some job').
Proof.
  destruct (decide (i = j)) as [->|Hne].
  - rewrite list_lookup_alter_eq. destruct (h !! j) as [job|]; simpl; [|done].
    intros [= <-]. left. eauto.
  - rewrite list_lookup_alter_ne by done. auto.
Qed.

Lemma slookup_snoc_Some (h : list Spooler.PrintJob) job i job' :
  (h ++ [job]) !! i = Some job' →
  (h !! i = Some job' ∧ (i < length h)%nat) ∨ (i = length h ∧ job' = job).
Proof.
  intros [Hi|(Hge & Hi)]%lookup_app_Some.
  - left. split; [done|]. by eapply lookup_lt_Some.
  - right. apply list_lookup_singleton_Some in Hi as [Hz ->].
    split; [lia|done].
Qed.

Lemma SInv_init : SInv Spooler.init.
Proof.
  split; simpl; try done.
  - intros r Hr. by apply elem_of_nil in Hr.
  - constructor.
  - intros f Hf. by apply elem_of_nil in Hf.
  - constructor.
Qed.

Lemma SInv_sendToPrint d s : SInv s → SInv (Spooler.sendToPrint d s).2.
Proof.
  intros [Hsz Hq Hnd Hqd Ht Hf Hfn Hp].
  assert (∀ r, r ∈ Queue.items (Spooler.queue s) →
               (r < length (Spooler.history s))%nat) as Hlt.
  { intros r Hr. destruct (Hq r Hr) as (job & Hjob & _).
    by eapply lookup_lt_Some. }
  split; rewrite ?sendToPrint_history, ?sendToPrint_queue.
  - unfold Spooler.sendToPrint. simpl.
    destruct (Spooler.n_priority d); sfields;
      rewrite ?length_app; simpl; lia.
  - intros r Hr.
    assert (r ∈ Queue.items (Spooler.queue s) ∨ r = length (Spooler.history s))
      as [Hold| ->].
    { destruct (Spooler.n_priority d).
      - apply elem_of_cons in Hr as [->|?]; auto.
      - apply elem_of_app in Hr as [?| ->%list_elem_of_singleton]; auto. }
    + destruct (Hq r Hold) as (job & Hjob & Hst). exists job. split; [|done].
      rewrite lookup_app_l; [done|]. by eapply lookup_lt_Some.
    + eexists. by rewrite list_lookup_middle.
  - destruct (Spooler.n_priority d).
    + apply NoDup_cons. split; [|done]. intros Hin%Hlt. lia.
    + apply NoDup_app. split_and!; [done| |apply NoDup_singleton].
      intros r Hr%Hlt ->%list_elem_of_singleton. lia.
  - intros i job [[Hi _]|[-> ->]]%slookup_snoc_Some Hst.
    + specialize (Hqd i job Hi Hst).
      destruct (Spooler.n_priority d); [by right|].
      apply elem_of_app. by left.
    + destruct (Spooler.n_priority d); [by left|].
      apply elem_of_app. right. by apply list_elem_of_singleton.
  - intros i job [[Hi _]|[-> ->]]%slookup_snoc_Some; [by apply (Ht i)|done].
  - intros f Hin. destruct (Hf f Hin) as (job & Hjob & Hst & Htt).
    exists job. split; [|done]. rewrite lookup_app_l; [done|].
    by eapply lookup_lt_Some.
  - done.
  - intros i job [[Hi _]|[-> ->]]%slookup_snoc_Some Hst; [by apply (Hp i job)|done].
Qed.

(** The state left by the body of the loop after its [await]. *)
Lemma SInv_finish s k f :
  SInv s → Spooler.suspended s !! k = Some f →
  SInv (Spooler.mk (Spooler.queue s)
          (alter (λ job, Spooler.set_printTimeMs (Spooler.f_totalTime f)
                           (Spooler.set_status Spooler.Completed job))
                 (Spooler.f_job f) (Spooler.history s))
          (Spooler.jobCounter s) (delete k (Spooler.suspended s))).
Proof.
  intros [Hsz Hq Hnd Hqd Ht Hf Hfn Hp] Hk.
  destruct (Hf f) as (jf & Hjf & Hstf & Htt);
    [by eapply list_elem_of_lookup_2|].
  assert (Spooler.suspended s
          = take k (Spooler.suspended s) ++ f :: drop (S k) (Spooler.suspended s))
    as Hsplit by (by rewrite <- drop_S, take_drop).
  assert (delete k (Spooler.suspended s)
          = take k (Spooler.suspended s) ++ drop (S k) (Spooler.suspended s))
    as Hdel by apply delete_take_drop.
  assert (∀ f', f' ∈ delete k (Spooler.suspended s) →
                f' ∈ Spooler.suspended s ∧ Spooler.f_job f' ≠ Spooler.f_job f)
    as Hothers.
  { intros f' Hin. rewrite Hdel in Hin. rewrite Hsplit in Hfn |- *.
    rewrite fmap_app, fmap_cons in Hfn.
    apply NoDup_app in Hfn as (_ & Hdisj & [Hnot _]%NoDup_cons).
    apply elem_of_app in Hin as [Hin|Hin]; split.
    - apply elem_of_app. by left.
    - intros Heq. apply (Hdisj (Spooler.f_job f')).
      + by apply list_elem_of_fmap_2.
      + rewrite Heq. by left.
    - apply elem_of_app. right. by right.
    - intros Heq. apply Hnot. rewrite <- Heq. by apply list_elem_of_fmap_2. }
  split; sfields; try done.
  - intros r Hr. destruct (Hq r Hr) as (job & Hjob & Hst). exists job.
    split; [|done]. rewrite list_lookup_alter_ne; [done|].
    intros <-. congruence.
  - intros i job [[-> (j0 & Hj0 & ->)]|[Hne Hi]]%slookup_alter_Some Hst;
      [done|eauto].
  - intros i job [[-> (j0 & Hj0 & ->)]|[Hne Hi]]%slookup_alter_Some.
    + simpl. assert (j0 = jf) as -> by congruence. by rewrite Htt.
    + by apply (Ht i).
  - intros f' [Hin Hne]%Hothers. destruct (Hf f' Hin) as (job & Hjob & Hst).
    exists job. split; [|done]. by rewrite list_lookup_alter_ne.
  - rewrite Hdel, fmap_app. rewrite Hsplit, fmap_app, fmap_cons in Hfn.
    apply NoDup_app in Hfn as (H1 & Hdisj & [_ H2]%NoDup_cons).
    apply NoDup_app. split_and!; [done| |done].
    intros x Hx Hx'. apply (Hdisj x Hx). by right.
  - intros i job [[-> (j0 & Hj0 & ->)]|[Hne Hi]]%slookup_alter_Some Hst;
      [done|].
    specialize (Hp i job Hi Hst). rewrite Hsplit in Hp. rewrite Hdel.
    rewrite fmap_app, fmap_cons in Hp. rewrite fmap_app.
    apply elem_of_app in Hp as [?|[->|?]%elem_of_cons];
      [apply elem_of_app; by left|done|apply elem_of_app; by right].
Qed.

Lemma SInv_processQueue_loop s : SInv s → SInv (Spooler.processQueue_loop s).
Proof.
  intros HI. pose proof HI as [Hsz Hq Hnd Hqd Ht Hf Hfn Hp].
  unfold Spooler.processQueue_loop, Queue.isEmpty, Queue.dequeue.
  destruct (Queue._size (Spooler.queue s) =? 0); [done|].
  destruct (Queue.items (Spooler.queue s)) as [|j rest] eqn:Hits; [done|].
  destruct (Hq j) as (job & Hjob & Hst); [by left|]. rewrite Hjob.
  apply NoDup_cons in Hnd as [Hj Hnd]. split; sfields.
  - simpl in Hsz. lia.
  - intros r Hr. destruct (Hq r) as (jr & Hjr & Hsr); [by right|].
    exists jr. split; [|done]. rewrite list_lookup_alter_ne; [done|].
    by intros ->.
  - done.
  - intros i ji [[-> (j0 & Hj0 & ->)]|[Hne Hi]]%slookup_alter_Some Hsi;
      [done|].
    by pose proof (Hqd i ji Hi Hsi) as [->|Hin]%elem_of_cons.
  - intros i ji [[-> (j0 & Hj0 & ->)]|[Hne Hi]]%slookup_alter_Some.
    + simpl. assert (j0 = job) as -> by congruence.
      rewrite (Ht j job Hjob), Hst. done.
    + by apply (Ht i).
  - intros f [Hin| ->%list_elem_of_singleton]%elem_of_app.
    + destruct (Hf f Hin) as (jf & Hjf & Hsf & Htt). exists jf.
      split; [|done]. rewrite list_lookup_alter_ne; [done|].
      intros Heq. congruence.
    + exists (Spooler.set_status Spooler.Printing job). simpl.
      by rewrite list_lookup_alter_eq, Hjob.
  - rewrite fmap_app. apply NoDup_app. split_and!; [done| |apply NoDup_singleton].
    intros x (f & Hx & Hin)%list_elem_of_fmap Hxj%list_elem_of_singleton.
    destruct (Hf f Hin) as (jf & Hjf & Hsf & _). simpl in Hxj. congruence.
  - intros i ji [[-> (j0 & Hj0 & ->)]|[Hne Hi]]%slookup_alter_Some Hsi;
      rewrite fmap_app; apply elem_of_app.
    + right. by left.
    + left. eauto.
Qed.

Lemma SInv_step e s o s' : SInv s → Spooler.step e s = Some (o, s') → SInv s'.
Proof.
  intros HI. destruct e as [d| | |k]; cbn [Spooler.step].
  - pose proof (SInv_sendToPrint d s HI) as HI'.
    destruct (Spooler.sendToPrint d s) as [r s1]. by intros [= <- <-].
  - intros [= <- <-]. by apply SInv_processQueue_loop.
  - by intros [= <- <-].
  - destruct (Spooler.suspended s !! k) as [f|] eqn:Hk; [|done].
    simpl. intros [= <- <-]. unfold Spooler.resume. sfields.
    apply SInv_processQueue_loop. by apply SInv_finish.
Qed.

Lemma Spooler_run_cons e es s :
  Spooler.run (e :: es) s =
  '(o, s1) ← Spooler.step e s; '(os, s2) ← Spooler.run es s1;
  Some (o :: os, s2).
Proof. done. Qed.

Lemma SInv_run es : ∀ s os s',
  SInv s → Spooler.run es s = Some (os, s') → SInv s'.
Proof.
  induction es as [|e es IH]; intros s os s' HI.
  - simpl. by intros [= <- <-].
  - rewrite Spooler_run_cons.
    destruct (Spooler.step e s) as [[o s1]|] eqn:He; [|done].
    simpl. destruct (Spooler.run es s1) as [[os1 s2]|] eqn:Hr; [|done].
    simpl. intros [= <- <-]. eauto using SInv_step.
Qed.

Lemma Spooler_reachable_SInv s : Spooler.reachable s → SInv s.
Proof. intros (es & os & Hr). eapply SInv_run; [apply SInv_init|done]. Qed.


Lemma reachable_classroom : Spooler.reachable (spooler_after classroom).
Proof. eexists classroom, _. vm_compute. reflexivity. Qed.

Lemma reachable_classroom_sent :
  Spooler.reachable (spooler_after (take 3 classroom)).
Proof. eexists (take 3 classroom), _. vm_compute. reflexivity. Qed.


(** ** The statistics of the spooler *)

Lemma omap_printTimeMs (h : list Spooler.PrintJob) :
  (∀ i job, h !! i = Some job →
     Spooler.printTimeMs job =
     if decide (Spooler.status job = Spooler.Completed)
     then Some (Spooler.pages job * Spooler.MS_PER_PAGE) else None) →
  omap Spooler.printTimeMs
       (filter (λ j, Spooler.status j = Spooler.Completed) h)
  = (λ j, Spooler.pages j * Spooler.MS_PER_PAGE)
    <$> filter (λ j, Spooler.status j = Spooler.Completed) h.
Proof.
  induction h as [|job h IH]; intros Ht; [done|].
  rewrite filter_cons. specialize (Ht 0%nat job eq_refl) as Hjob.
  assert (∀ i ji, h !! i = Some ji →
     Spooler.printTimeMs ji =
     if decide (Spooler.status ji = Spooler.Completed)
     then Some (Spooler.pages ji * Spooler.MS_PER_PAGE) else None) as Ht'
    by (intros i ji Hi; by apply (Ht (S i))).
  case_decide; [|by apply IH].
  cbn [omap list_omap fmap list_fmap]. rewrite Hjob. cbn.
  f_equal. by apply IH.
Qed.

Lemma foldl_pages (h : list Spooler.PrintJob) : ∀ a,
  foldl (λ acc j, acc + Spooler.pages j) a h
  = a + foldr (λ j acc, Spooler.pages j + acc) 0 h.
Proof.
  induction h as [|x l IH]; intros a; simpl; [lia|]. rewrite IH. lia.
Qed.

(** X18: what [getStats] of the spooler reports in a reachable state.
    [completed] is at most [totalJobs]; [totalPages] adds up the pages
    of every job sent, printed or not; [averageTimeMs] is 0 when
    nothing is completed and otherwise [Math.round] of the mean of
    500 times the pages of the completed jobs; [attendanceOrder] names
    the completed jobs in the order in which they were sent. *)
Theorem spooler_getStats_report s :
  Spooler.reachable s →
  let st := Spooler.getStats s in
  let finished := filter (λ j, Spooler.status j = Spooler.Completed)
                         (Spooler.history s) in
  Spooler.totalJobs st = Z.of_nat (length (Spooler.history s)) ∧
  0 <= Spooler.completed st <= Spooler.totalJobs st ∧
  Spooler.totalPages st
  = foldr (λ j acc, Spooler.pages j + acc) 0 (Spooler.history s) ∧
  Spooler.averageTimeMs st =
    (if decide (finished = []) then 0
     else Math_round (mean ((λ j, Spooler.pages j * 500) <$> finished))) ∧
  Spooler.attendanceOrder st = Spooler.student <$> finished ∧
  Spooler.attendanceOrder st `sublist_of`
    (Spooler.student <$> Spooler.history s).
Proof.
  intros HI%Spooler_reachable_SInv st finished. subst st finished.
  unfold Spooler.getStats.
  cbn [Spooler.totalJobs Spooler.completed Spooler.totalPages
       Spooler.averageTimeMs Spooler.attendanceOrder].
  split_and!.
  - done.
  - lia.
  - apply inj_le, length_filter.
  - by rewrite foldl_pages.
  - rewrite (omap_printTimeMs _ (s_time _ HI)), average_eq.
    destruct (filter _ (Spooler.history s)); by repeat case_decide.
  - done.
  - apply fmap_sublist, sublist_filter.
Qed.

Lemma spooler_getStats_report_witness :
  Spooler.attendanceOrder (Spooler.getStats (spooler_after classroom))
  = ["Valentina"; "Teacher"].
Proof.
  pose proof (spooler_getStats_report (spooler_after classroom)
                reachable_classroom) as (_ & _ & _ & _ & Horder & _).
  rewrite Horder. reflexivity.
Defined.

(** ** Running the printer *)

(** The loop on a queue with a head: the head job is set to printing
    and the call waits for its timer. *)
Lemma processQueue_loop_head s j rest job :
  SInv s → Queue.items (Spooler.queue s) = j :: rest →
  Spooler.history s !! j = Some job →
  Spooler.processQueue_loop s =
  Spooler.mk (Queue.mk rest (Queue._size (Spooler.queue s) - 1))
             (alter (Spooler.set_status Spooler.Printing) j (Spooler.history s))
             (Spooler.jobCounter s)
             (Spooler.suspended s
              ++ [Spooler.mkFrame j (Spooler.pages job * Spooler.MS_PER_PAGE)]).
Proof.
  intros HI Hits Hjob. pose proof (s_size _ HI) as Hsz.
  unfold Spooler.processQueue_loop, Queue.isEmpty, Queue.dequeue.
  rewrite Hits in *. simpl in Hsz.
  destruct (Z.eqb_spec (Queue._size (Spooler.queue s)) 0); [lia|].
  by rewrite Hjob.
Qed.

Lemma processQueue_loop_empty s :
  SInv s → Queue.items (Spooler.queue s) = [] →
  Spooler.processQueue_loop s = s.
Proof.
  intros HI Hits. pose proof (s_size _ HI) as Hsz.
  unfold Spooler.processQueue_loop, Queue.isEmpty. rewrite Hits in Hsz.
  by rewrite Hsz.
Qed.

(** X19: [processQueue] has no guard against a second call.  Called
    twice in a reachable state whose queue holds at least two jobs, it
    leaves both head jobs printing at once, each with its own suspended
    call. *)
Theorem processQueue_twice_prints_two_jobs s a b rest :
  Spooler.reachable s → Queue.toArray (Spooler.queue s) = a :: b :: rest →
  ∃ ja jb s',
    Spooler.history s !! a = Some ja ∧ Spooler.history s !! b = Some jb ∧
    Spooler.run [Spooler.CallProcessQueue; Spooler.CallProcessQueue] s
    = Some ([Spooler.RetPromise; Spooler.RetPromise], s') ∧
    Queue.toArray (Spooler.queue s') = rest ∧
    Spooler.suspended s' =
      Spooler.suspended s ++
      [Spooler.mkFrame a (Spooler.pages ja * 500);
       Spooler.mkFrame b (Spooler.pages jb * 500)] ∧
    Spooler.status <$> Spooler.history s' !! a = Some Spooler.Printing ∧
    Spooler.status <$> Spooler.history s' !! b = Some Spooler.Printing.
Proof.
  unfold Queue.toArray. intros HI%Spooler_reachable_SInv Hits.
  destruct (s_queue _ HI a) as (ja & Hja & Hsa); [rewrite Hits; by left|].
  destruct (s_queue _ HI b) as (jb & Hjb & Hsb);
    [rewrite Hits; right; by left|].
  assert (a ≠ b) as Hab.
  { pose proof (s_nodup _ HI) as Hnd. rewrite Hits in Hnd.
    apply NoDup_cons in Hnd as [Hnot _]. intros ->. apply Hnot. by left. }
  exists ja, jb. eexists. split_and!; [done|done| | | | |].
  - cbn [Spooler.run Spooler.step mbind option_bind].
    unfold Spooler.processQueue. reflexivity.
  - pose proof (SInv_processQueue_loop s HI) as HI1.
    rewrite (processQueue_loop_head s a (b :: rest) ja HI Hits Hja) in *.
    rewrite (processQueue_loop_head _ b rest jb HI1 eq_refl); sfields;
      [done|by rewrite list_lookup_alter_ne].
  - pose proof (SInv_processQueue_loop s HI) as HI1.
    rewrite (processQueue_loop_head s a (b :: rest) ja HI Hits Hja) in *.
    rewrite (processQueue_loop_head _ b rest jb HI1 eq_refl); sfields;
      [by rewrite <- app_assoc|by rewrite list_lookup_alter_ne].
  - pose proof (SInv_processQueue_loop s HI) as HI1.
    rewrite (processQueue_loop_head s a (b :: rest) ja HI Hits Hja) in *.
    rewrite (processQueue_loop_head _ b rest jb HI1 eq_refl); sfields;
      [|by rewrite list_lookup_alter_ne].
    rewrite list_lookup_alter_ne by done.
    by rewrite list_lookup_alter_eq, Hja.
  - pose proof (SInv_processQueue_loop s HI) as HI1.
    rewrite (processQueue_loop_head s a (b :: rest) ja HI Hits Hja) in *.
    rewrite (processQueue_loop_head _ b rest jb HI1 eq_refl); sfields;
      [|by rewrite list_lookup_alter_ne].
    rewrite list_lookup_alter_eq, list_lookup_alter_ne by done.
    by rewrite Hjb.
Qed.

Lemma processQueue_twice_prints_two_jobs_witness :
  ∃ ja jb s',
    Spooler.history (spooler_after (take 3 classroom)) !! 2%nat = Some ja ∧
    Spooler.history (spooler_after (take 3 classroom)) !! 0%nat = Some jb ∧
    Spooler.run [Spooler.CallProcessQueue; Spooler.CallProcessQueue]
                (spooler_after (take 3 classroom))
    = Some ([Spooler.RetPromise; Spooler.RetPromise], s') ∧
    Queue.toArray (Spooler.queue s') = [1%nat] ∧
    Spooler.suspended s' =
      Spooler.suspended (spooler_after (take 3 classroom)) ++
      [Spooler.mkFrame 2 (Spooler.pages ja * 500);
       Spooler.mkFrame 0 (Spooler.pages jb * 500)] ∧
    Spooler.status <$> Spooler.history s' !! 2%nat = Some Spooler.Printing ∧
    Spooler.status <$> Spooler.history s' !! 0%nat = Some Spooler.Printing.
Proof.
  apply (processQueue_twice_prints_two_jobs
           (spooler_after (take 3 classroom)) 2%nat 0%nat [1%nat]).
  - apply reachable_classroom_sent.
  - reflexivity.
Defined.

Lemma student_alter (g : Spooler.PrintJob → Spooler.PrintJob) (j : nat)
  (h : list Spooler.PrintJob) :
  (∀ x, Spooler.student (g x) = Spooler.student x) →
  Spooler.student <$> alter g j h = Spooler.student <$> h.
Proof.
  intros Hg. rewrite (list_fmap_alter Spooler.student g (λ x, x)).
  - by apply list_alter_id.
  - apply Forall_forall. auto.
Qed.

Lemma filter_all {A : Type} (P : A → Prop) `{!∀ x, Decision (P x)}
  (l : list A) : Forall P l → filter P l = l.
Proof.
  induction 1 as [|x l Hx _ IH]; [done|].
  by rewrite filter_cons_True, IH.
Qed.

Lemma SInv_settled s :
  SInv s → Queue.items (Spooler.queue s) = [] → Spooler.suspended s = [] →
  ∀ i job, Spooler.history s !! i = Some job →
           Spooler.status job = Spooler.Completed.
Proof.
  intros HI Hits Hsus i job Hi. destruct (Spooler.status job) eqn:Hst; [| |done].
  - pose proof (s_queued _ HI i job Hi Hst) as Hin.
    rewrite Hits in Hin. by apply elem_of_nil in Hin.
  - pose proof (s_printing _ HI i job Hi Hst) as Hin.
    rewrite Hsus in Hin. by apply elem_of_nil in Hin.
Qed.

(** One [processQueue] call run to its end. *)
Lemma processQueue_loop_drains : ∀ m s,
  SInv s → length (Queue.items (Spooler.queue s)) = m →
  Spooler.suspended s = [] →
  ∃ s', Spooler.run (replicate m (Spooler.TimerFires 0))
                    (Spooler.processQueue_loop s)
        = Some (replicate m Spooler.NoCaller, s') ∧
        SInv s' ∧ Spooler.suspended s' = [] ∧
        Queue.items (Spooler.queue s') = [] ∧
        Spooler.student <$> Spooler.history s'
        = Spooler.student <$> Spooler.history s.
Proof.
  induction m as [|m IH]; intros s HI Hlen Hsus.
  - apply nil_length_inv in Hlen.
    rewrite (processQueue_loop_empty s HI Hlen). by exists s.
  - destruct (Queue.items (Spooler.queue s)) as [|j rest] eqn:Hits; [done|].
    destruct (s_queue _ HI j) as (job & Hjob & Hst); [rewrite Hits; by left|].
    pose proof (SInv_processQueue_loop s HI) as HI1.
    rewrite (processQueue_loop_head s j rest job HI Hits Hjob) in *.
    rewrite Hsus in *. cbn [app] in *.
    pose proof (SInv_finish _ 0 _ HI1 eq_refl) as HI2. sfields.
    destruct (IH _ HI2) as (s' & Hr & HI' & Hsus' & Hits' & Hstud); sfields;
      [by injection Hlen|done|].
    exists s'. split_and!; try done.
    + cbn [replicate]. rewrite Spooler_run_cons.
      cbn [Spooler.step Spooler.suspended lookup list_lookup mbind option_bind].
      unfold Spooler.resume. sfields. cbn [delete list_delete] in *.
      cbn [Spooler.f_job Spooler.f_totalTime] in *. by rewrite Hr.
    + rewrite Hstud. cbn [Spooler.f_job Spooler.f_totalTime].
      by rewrite !student_alter.
Qed.

(** X20: one [processQueue] call prints everything.  In a reachable
    state with no [processQueue] call in progress, a call followed by as
    many timers as there are queued jobs leaves the queue empty, no call
    suspended and every job completed; [attendanceOrder] then names all
    the students in the order in which their jobs were sent, not the
    order in which they were printed. *)
Theorem processQueue_prints_everything s :
  Spooler.reachable s → Spooler.suspended s = [] →
  ∃ os s',
    Spooler.run (Spooler.CallProcessQueue
                 :: replicate (length (Queue.toArray (Spooler.queue s)))
                              (Spooler.TimerFires 0)) s
    = Some (os, s') ∧
    Queue.toArray (Spooler.queue s') = [] ∧ Spooler.suspended s' = [] ∧
    (∀ i job, Spooler.history s' !! i = Some job →
              Spooler.status job = Spooler.Completed ∧
              Spooler.printTimeMs job = Some (Spooler.pages job * 500)) ∧
    Spooler.attendanceOrder (Spooler.getStats s')
    = Spooler.student <$> Spooler.history s.
Proof.
  unfold Queue.toArray. intros HI%Spooler_reachable_SInv Hsus.
  destruct (processQueue_loop_drains _ s HI eq_refl Hsus)
    as (s' & Hr & HI' & Hsus' & Hits' & Hstud).
  exists (Spooler.RetPromise
          :: replicate (length (Queue.items (Spooler.queue s))) Spooler.NoCaller),
    s'.
  pose proof (SInv_settled s' HI' Hits' Hsus') as Hall.
  split_and!; try done.
  - rewrite Spooler_run_cons. cbn [Spooler.step mbind option_bind].
    unfold Spooler.processQueue. by rewrite Hr.
  - intros i job Hi. split; [by apply (Hall i)|].
    rewrite (s_time _ HI' i job Hi), decide_True; [done|by apply (Hall i)].
  - unfold Spooler.getStats. cbn [Spooler.attendanceOrder].
    rewrite <- Hstud. f_equal.
    rewrite filter_all; [done|]. apply Forall_lookup. exact Hall.
Qed.

Lemma processQueue_prints_everything_witness :
  ∃ os s',
    Spooler.run (Spooler.CallProcessQueue
                 :: replicate 3 (Spooler.TimerFires 0))
                (spooler_after (take 3 classroom))
    = Some (os, s') ∧
    Queue.toArray (Spooler.queue s') = [] ∧ Spooler.suspended s' = [] ∧
    (∀ i job, Spooler.history s' !! i = Some job →
              Spooler.status job = Spooler.Completed ∧
              Spooler.printTimeMs job = Some (Spooler.pages job * 500)) ∧
    Spooler.attendanceOrder (Spooler.getStats s')
    = ["Valentina"; "Camilo"; "Teacher"].
Proof.
  apply (processQueue_prints_everything (spooler_after (take 3 classroom))).
  - apply reachable_classroom_sent.
  - reflexivity.
Defined.
